(** * Lazy class-descriptor initialisation of the PRTE object system

    A shallow embedding of [src/class/prte_object.c]: the class
    descriptors, the registry of chain allocations, the two operations
    [prte_class_initialize] and [prte_class_finalize] with their helpers
    [save_class] and [expand_array], and the properties of the
    constructor and destructor chains they compute.

    - Descriptors are caller-owned records; they live in a store indexed
      by their address, and a pointer to a descriptor is such an address.
    - The chain arrays live in a heap of blocks of function-pointer slots;
      a pointer into a block is the block and a slot index.  A slot of a
      fresh block is indeterminate until it is written.
    - [int] variables are integers with the bounds of [int]; an addition
      that leaves the bounds is undefined behaviour.
    - [malloc] and [realloc] hand out slots from a budget, [mem_avail], and
      fail when it does not suffice; [free] returns the slots.
    - A call returns, or ends the process ([exit] after a failed
      allocation), or has undefined behaviour, or runs out of the steps it
      was given to walk the parent chain (a cyclic chain never ends).
    - Executions are sequential: [class_lock] is free at every call and
      released on every path out of [prte_class_initialize], so taking and
      releasing it leaves no trace in the state. *)

From stdpp Require Import gmap list strings.

Local Open Scope Z_scope.

(** ** Machine integers, pointers, outcomes *)

Definition INT_MAX : Z := 2147483647.
Definition INT_MIN : Z := - INT_MAX - 1.

(** Modelled from the spec: the success indicator returned by the finalize
    operation; [constants.h], which defines it, is not part of the sources. *)
Definition PRTE_SUCCESS : Z := 0.

(** A function pointer ([prte_construct_t], [prte_destruct_t]); [None] is
    the C [NULL]. *)
Abbreviation fnptr := (option positive).

(** A pointer to a slot of a heap block: the block and the slot index. *)
Inductive ptr : Type :=
| NULL
| Ptr (b : positive) (off : Z).

Global Instance ptr_eq_dec : EqDecision ptr.
Proof. solve_decision. Defined.

(** What a call does: it returns, it ends the process through [exit], it
    leaves defined behaviour (a wild access, a signed overflow, a read of
    an indeterminate slot), or the walk of the parent chain did not end
    within the steps it was given. *)
Inductive outcome (A : Type) : Type :=
| Done (a : A)
| Exit (status : Z)
| Fault
| OutOfFuel.
Arguments Done {A} a.
Arguments Exit {A} status.
Arguments Fault {A}.
Arguments OutOfFuel {A}.

Global Instance outcome_ret : MRet outcome := λ A a, Done a.
Global Instance outcome_bind : MBind outcome := λ A B k m,
  match m with
  | Done a => k a
  | Exit s => Exit s
  | Fault => Fault
  | OutOfFuel => OutOfFuel
  end.

(** Signed [int] addition; overflow is undefined. *)
Definition int_add (x y : Z) : outcome Z :=
  if (INT_MIN <=? x + y) && (x + y <=? INT_MAX) then Done (x + y) else Fault.

(** [for (i = lo; i < hi; ++i) body], for a bound the body leaves alone:
    [for_loop (Z.to_nat (hi - lo)) lo body]. *)
Fixpoint for_loop {S : Type} (n : nat) (i : Z) (body : Z → S → outcome S) (s : S)
  : outcome S :=
  match n with
  | O => Done s
  | S n' => s' ← body i s; for_loop n' (i + 1) body s'
  end.

(** ** Class descriptors *)

Record prte_class_t : Type := {
  cls_name : string;
  cls_parent : option positive;
  cls_construct : fnptr;
  cls_destruct : fnptr;
  cls_initialized : Z;
  cls_depth : Z;
  cls_construct_array : ptr;
  cls_destruct_array : ptr;
  cls_sizeof : Z
}.

(** The descriptor of the base class, as the source instantiates it. *)
Definition prte_object_t_class (size : Z) : prte_class_t := {|
  cls_name := "prte_object_t";
  cls_parent := None;
  cls_construct := None;
  cls_destruct := None;
  cls_initialized := 1;
  cls_depth := 0;
  cls_construct_array := NULL;
  cls_destruct_array := NULL;
  cls_sizeof := size
|}.

(** Assignments to the four fields the initialiser writes. *)
Definition set_depth (z : Z) (c : prte_class_t) : prte_class_t := {|
  cls_name := cls_name c; cls_parent := cls_parent c;
  cls_construct := cls_construct c; cls_destruct := cls_destruct c;
  cls_initialized := cls_initialized c; cls_depth := z;
  cls_construct_array := cls_construct_array c;
  cls_destruct_array := cls_destruct_array c; cls_sizeof := cls_sizeof c |}.

Definition set_construct_array (p : ptr) (c : prte_class_t) : prte_class_t := {|
  cls_name := cls_name c; cls_parent := cls_parent c;
  cls_construct := cls_construct c; cls_destruct := cls_destruct c;
  cls_initialized := cls_initialized c; cls_depth := cls_depth c;
  cls_construct_array := p;
  cls_destruct_array := cls_destruct_array c; cls_sizeof := cls_sizeof c |}.

Definition set_destruct_array (p : ptr) (c : prte_class_t) : prte_class_t := {|
  cls_name := cls_name c; cls_parent := cls_parent c;
  cls_construct := cls_construct c; cls_destruct := cls_destruct c;
  cls_initialized := cls_initialized c; cls_depth := cls_depth c;
  cls_construct_array := cls_construct_array c;
  cls_destruct_array := p; cls_sizeof := cls_sizeof c |}.

Definition set_initialized (z : Z) (c : prte_class_t) : prte_class_t := {|
  cls_name := cls_name c; cls_parent := cls_parent c;
  cls_construct := cls_construct c; cls_destruct := cls_destruct c;
  cls_initialized := z; cls_depth := cls_depth c;
  cls_construct_array := cls_construct_array c;
  cls_destruct_array := cls_destruct_array c; cls_sizeof := cls_sizeof c |}.

(** ** The state of the process *)

(** A heap block is an array of function-pointer slots; a slot is [None]
    until it is first written. *)
Abbreviation block := (list (option fnptr)).

Record state : Type := {
  (** the caller-owned descriptors, by address *)
  descs : gmap positive prte_class_t;
  (** the blocks handed out by [malloc] and not yet freed *)
  heap : gmap positive block;
  (** pointer-sized slots the allocator can still hand out *)
  mem_avail : Z;
  prte_class_init_epoch : Z;
  (** [classes]: [None] is [NULL]; a slot is [None] until written *)
  classes : option (list (option ptr));
  num_classes : Z;
  max_classes : Z
}.

Definition increment : Z := 10.

(** Reading a descriptor through a pointer to it. *)
Definition deref (d : gmap positive prte_class_t) (c : option positive)
  : outcome prte_class_t :=
  match c with
  | None => Fault
  | Some a => match d !! a with Some cd => Done cd | None => Fault end
  end.

(** ** The allocator *)

Definition malloc (h : gmap positive block) (avail n : Z)
  : option (positive * gmap positive block * Z) :=
  if (0 <? n) && (n <=? avail)
  then let b := fresh (dom h) in
       Some (b, <[b := replicate (Z.to_nat n) None]> h, avail - n)
  else None.

Definition free (h : gmap positive block) (avail : Z) (p : ptr)
  : outcome (gmap positive block * Z) :=
  match p with
  | NULL => Done (h, avail)
  | Ptr b off =>
      match h !! b with
      | Some blk =>
          if off =? 0 then Done (delete b h, avail + Z.of_nat (length blk))
          else Fault
      | None => Fault
      end
  end.

(** [realloc] of the [classes] array to [n] slots: the old slots are kept,
    the new ones are indeterminate. *)
Definition realloc (old : option (list (option ptr))) (avail n : Z)
  : option (list (option ptr) * Z) :=
  let cur := default [] old in
  let grow := n - Z.of_nat (length cur) in
  if (0 <? n) && (grow <=? avail)
  then Some (take (Z.to_nat n) cur ++ replicate (Z.to_nat grow) None, avail - grow)
  else None.

(** [*p = v] on a chain block. *)
Definition store_slot (h : gmap positive block) (p : ptr) (v : fnptr)
  : outcome (gmap positive block) :=
  match p with
  | NULL => Fault
  | Ptr b off =>
      match h !! b with
      | Some blk =>
          if (0 <=? off) && (off <? Z.of_nat (length blk))
          then Done (<[b := <[Z.to_nat off := Some v]> blk]> h)
          else Fault
      | None => Fault
      end
  end.

(** [*p] on a chain block. *)
Definition load_slot (h : gmap positive block) (p : ptr) : outcome fnptr :=
  match p with
  | NULL => Fault
  | Ptr b off =>
      match h !! b with
      | Some blk =>
          if 0 <=? off
          then match blk !! Z.to_nat off with
               | Some (Some v) => Done v
               | _ => Fault
               end
          else Fault
      | None => Fault
      end
  end.

Definition ptr_add (p : ptr) (k : Z) : ptr :=
  match p with
  | NULL => NULL
  | Ptr b off => Ptr b (off + k)
  end.

(** [a[i] = v] and [a[i]] on the [classes] array. *)
Definition array_set (a : list (option ptr)) (i : Z) (v : ptr)
  : outcome (list (option ptr)) :=
  if (0 <=? i) && (i <? Z.of_nat (length a))
  then Done (<[Z.to_nat i := Some v]> a)
  else Fault.

Definition array_get (a : list (option ptr)) (i : Z) : outcome ptr :=
  if 0 <=? i
  then match a !! Z.to_nat i with
       | Some (Some p) => Done p
       | _ => Fault
       end
  else Fault.

(** ** [prte_class_initialize] *)

(** The first loop: [for (c = cls; c; c = c->cls_parent)], counting the
    constructors and destructors on the way up and incrementing
    [cls->cls_depth] in the store at every class. *)
Fixpoint count_loop (fuel : nat) (cls : positive) (d : gmap positive prte_class_t)
    (c : option positive) (nc nd : Z)
  : outcome (gmap positive prte_class_t * Z * Z) :=
  match c with
  | None => Done (d, nc, nd)
  | Some _ =>
      match fuel with
      | O => OutOfFuel
      | S fuel' =>
          cd ← deref d c;
          nc' ← (if cls_construct cd is Some _ then int_add nc 1 else Done nc);
          nd' ← (if cls_destruct cd is Some _ then int_add nd 1 else Done nd);
          self ← deref d (Some cls);
          dep ← int_add (cls_depth self) 1;
          let d' := <[cls := set_depth dep self]> d in
          cd' ← deref d' c;
          count_loop fuel' cls d' (cls_parent cd') nc' nd'
      end
  end.

(** The body of the second loop.  Its state is the heap, the class [c]
    and the two cursors [cls_construct_array] and [cls_destruct_array]. *)
Definition fill_body (d : gmap positive prte_class_t) (i : Z)
    (s : gmap positive block * option positive * ptr * ptr)
  : outcome (gmap positive block * option positive * ptr * ptr) :=
  let '(h, c, pc, pd) := s in
  cd ← deref d c;
  '(h1, pc1) ← (if cls_construct cd is Some _
                then let pc1 := ptr_add pc (-1) in
                     h1 ← store_slot h pc1 (cls_construct cd); Done (h1, pc1)
                else Done (h, pc));
  '(h2, pd1) ← (if cls_destruct cd is Some _
                then h2 ← store_slot h1 pd (cls_destruct cd);
                     Done (h2, ptr_add pd 1)
                else Done (h1, pd));
  Done (h2, cls_parent cd, pc1, pd1).

(** [expand_array]: [increment] more slots for [classes], the new ones set
    to [NULL]. *)
Definition expand_array (st : state) : outcome state :=
  max' ← int_add (max_classes st) increment;
  match realloc (classes st) (mem_avail st) max' with
  | None => Exit (-1) (* perror; exit(-1) *)
  | Some (arr, avail') =>
      arr' ← for_loop (Z.to_nat (max' - num_classes st)) (num_classes st)
                (λ i a, array_set a i NULL) arr;
      Done {| descs := descs st; heap := heap st; mem_avail := avail';
              prte_class_init_epoch := prte_class_init_epoch st;
              classes := Some arr'; num_classes := num_classes st;
              max_classes := max' |}
  end.

(** [save_class]: the base of the block of [cls] goes into the next free
    slot of [classes]. *)
Definition save_class (st : state) (cls : positive) : outcome state :=
  st1 ← (if max_classes st <=? num_classes st then expand_array st else Done st);
  cd ← deref (descs st1) (Some cls);
  arr ← (if classes st1 is Some a then Done a else Fault);
  arr' ← array_set arr (num_classes st1) (cls_construct_array cd);
  n' ← int_add (num_classes st1) 1;
  Done {| descs := descs st1; heap := heap st1; mem_avail := mem_avail st1;
          prte_class_init_epoch := prte_class_init_epoch st1;
          classes := Some arr'; num_classes := n';
          max_classes := max_classes st1 |}.

(** [cls] is the address the caller passes; the leading [assert] rules out
    a null pointer, and an address that holds no descriptor is a wild
    access. *)
Definition prte_class_initialize (fuel : nat) (st : state) (cls : positive)
  : outcome state :=
  c0 ← deref (descs st) (Some cls);
  if prte_class_init_epoch st =? cls_initialized c0 then Done st else
  (* prte_mutex_lock(&class_lock); the test again, under the lock *)
  c1 ← deref (descs st) (Some cls);
  if prte_class_init_epoch st =? cls_initialized c1 then Done st else
  let d1 := <[cls := set_depth 0 c1]> (descs st) in
  '(d2, nc, nd) ← count_loop fuel cls d1 (Some cls) 0 0;
  n1 ← int_add nc nd;
  n ← int_add n1 2;
  match malloc (heap st) (mem_avail st) n with
  | None => Exit (-1) (* perror; prte_mutex_unlock(&class_lock); exit(-1) *)
  | Some (b, h1, avail1) =>
      c2 ← deref d2 (Some cls);
      let d3 := <[cls := set_construct_array (Ptr b 0) c2]> d2 in
      c3 ← deref d3 (Some cls);
      let d4 := <[cls := set_destruct_array
                           (ptr_add (ptr_add (cls_construct_array c3) nc) 1) c3]> d3 in
      c4 ← deref d4 (Some cls);
      let pc := ptr_add (cls_construct_array c4) nc in
      let pd := cls_destruct_array c4 in
      h2 ← store_slot h1 pc None;
      '(h3, _, _, pd') ← for_loop (Z.to_nat (cls_depth c4 - 0)) 0 (fill_body d4)
                            (h2, Some cls, pc, pd);
      h4 ← store_slot h3 pd' None;
      let d5 := <[cls := set_initialized (prte_class_init_epoch st) c4]> d4 in
      save_class {| descs := d5; heap := h4; mem_avail := avail1;
                    prte_class_init_epoch := prte_class_init_epoch st;
                    classes := classes st; num_classes := num_classes st;
                    max_classes := max_classes st |} cls
  end.

(** ** [prte_class_finalize] *)

(** The body of its loop: [if (NULL != classes[i]) free(classes[i])]. *)
Definition free_body (arr : list (option ptr)) (i : Z)
    (s : gmap positive block * Z) : outcome (gmap positive block * Z) :=
  let '(h, avail) := s in
  p ← array_get arr i;
  if decide (p = NULL) then Done (h, avail) else free h avail p.

Definition prte_class_finalize (st : state) : outcome (Z * state) :=
  let epoch' := if INT_MAX =? prte_class_init_epoch st then 1
                else prte_class_init_epoch st + 1 in
  match classes st with
  | Some arr =>
      '(h, avail) ← for_loop (Z.to_nat (num_classes st - 0)) 0 (free_body arr)
                       (heap st, mem_avail st);
      Done (PRTE_SUCCESS,
            {| descs := descs st; heap := h;
               mem_avail := avail + Z.of_nat (length arr);
               prte_class_init_epoch := epoch';
               classes := None; num_classes := 0; max_classes := 0 |})
  | None =>
      Done (PRTE_SUCCESS,
            {| descs := descs st; heap := heap st; mem_avail := mem_avail st;
               prte_class_init_epoch := epoch';
               classes := classes st; num_classes := num_classes st;
               max_classes := max_classes st |})
  end.

(** The state the process starts in, for a given set of descriptors. *)
Definition initial_state (d : gmap positive prte_class_t) (avail : Z) : state := {|
  descs := d; heap := ∅; mem_avail := avail;
  prte_class_init_epoch := 1;
  classes := None; num_classes := 0; max_classes := 0
|}.

(** ** The hierarchy a descriptor declares *)

(** The classes from [c] up to the root, [c] first, when the parent chain
    ends within [fuel] links. *)
Fixpoint ancestors (fuel : nat) (d : gmap positive prte_class_t)
    (c : option positive) : option (list positive) :=
  match c with
  | None => Some []
  | Some a =>
      match fuel with
      | O => None
      | S fuel' =>
          cd ← d !! a;
          l ← ancestors fuel' d (cls_parent cd);
          Some (a :: l)
      end
  end.

(** The constructors, and the destructors, that the classes of [l] define,
    in the order of [l]. *)
Definition ctors (d : gmap positive prte_class_t) (l : list positive)
  : list positive :=
  omap (λ a, d !! a ≫= cls_construct) l.

Definition dtors (d : gmap positive prte_class_t) (l : list positive)
  : list positive :=
  omap (λ a, d !! a ≫= cls_destruct) l.

(** The slot of a block that holds the function [f]. *)
Definition fn_slot (f : positive) : option fnptr := Some (Some f).

(** The block that holds both chains: the constructors base class first,
    an end marker, the destructors derived class first, an end marker. *)
Definition chain_block (cs ds : list positive) : block :=
  (fn_slot <$> reverse cs) ++ Some None :: (fn_slot <$> ds) ++ [Some None].

(** [n] consecutive slots read from [p] on. *)
Fixpoint load_array (n : nat) (h : gmap positive block) (p : ptr)
  : outcome (list fnptr) :=
  match n with
  | O => Done []
  | S n' =>
      v ← load_slot h p;
      vs ← load_array n' h (ptr_add p 1);
      Done (v :: vs)
  end.

(** The descriptor of [cls] once initialised: depth, the two cursors into
    block [b], and the stamp. *)
Definition initialized_class (cd : prte_class_t) (epoch depth : Z) (b : positive)
    (nc : Z) : prte_class_t :=
  set_initialized epoch
    (set_destruct_array (Ptr b (nc + 1))
       (set_construct_array (Ptr b 0) (set_depth depth cd))).

(** The state a stale descriptor's initialisation ends in, written out:
    [l] is the chain of [cls] and [cd] its descriptor. *)
Definition initialized_state (st : state) (cls : positive) (cd : prte_class_t)
    (l : list positive) : state :=
  let cs := ctors (descs st) l in
  let ds := dtors (descs st) l in
  let b := fresh (dom (heap st)) in
  let nc := Z.of_nat (length cs) in
  let grow := max_classes st <=? num_classes st in
  let arr := default [] (classes st)
             ++ (if grow then replicate (Z.to_nat increment) (Some NULL) else []) in
  {| descs := <[cls := initialized_class cd (prte_class_init_epoch st)
                         (Z.of_nat (length l)) b nc]> (descs st);
     heap := <[b := chain_block cs ds]> (heap st);
     mem_avail := mem_avail st - (nc + Z.of_nat (length ds) + 2)
                  - (if grow then increment else 0);
     prte_class_init_epoch := prte_class_init_epoch st;
     classes := Some (<[Z.to_nat (num_classes st) := Some (Ptr b 0)]> arr);
     num_classes := num_classes st + 1;
     max_classes := max_classes st + (if grow then increment else 0) |}.

(** The state in which [prte_class_initialize] calls [save_class]. *)
Definition pre_save_state (st : state) (cls : positive) (cd : prte_class_t)
    (l : list positive) : state :=
  let cs := ctors (descs st) l in
  let ds := dtors (descs st) l in
  let b := fresh (dom (heap st)) in
  let nc := Z.of_nat (length cs) in
  {| descs := <[cls := initialized_class cd (prte_class_init_epoch st)
                         (Z.of_nat (length l)) b nc]> (descs st);
     heap := <[b := chain_block cs ds]> (heap st);
     mem_avail := mem_avail st - (nc + Z.of_nat (length ds) + 2);
     prte_class_init_epoch := prte_class_init_epoch st;
     classes := classes st;
     num_classes := num_classes st;
     max_classes := max_classes st |}.

(** What a class declares: parent, constructor, destructor. *)
Definition decl (c : prte_class_t) : option positive * fnptr * fnptr :=
  (cls_parent c, cls_construct c, cls_destruct c).

(** The blocks the registry lists, in the order of [classes]. *)
Definition registered (st : state) : list positive :=
  omap (λ s, match s with Some (Ptr b _) => Some b | _ => None end)
       (take (Z.to_nat (num_classes st)) (default [] (classes st))).

Definition block_size (h : gmap positive block) (b : positive) : Z :=
  Z.of_nat (length (default [] (h !! b))).

Definition freed_slots (h : gmap positive block) (bs : list positive) : Z :=
  foldr (λ b z, block_size h b + z) 0 bs.

Definition next_epoch (e : Z) : Z := if INT_MAX =? e then 1 else e + 1.

(** The state [prte_class_finalize] ends in, written out. *)
Definition finalized_state (st : state) : state := {|
  descs := descs st;
  heap := foldl (λ h b, delete b h) (heap st) (registered st);
  mem_avail := mem_avail st + freed_slots (heap st) (registered st)
               + Z.of_nat (length (default [] (classes st)));
  prte_class_init_epoch := next_epoch (prte_class_init_epoch st);
  classes := None; num_classes := 0; max_classes := 0
|}.

(** The slots an initialisation asks the allocator for. *)
Definition mem_needed (st : state) (l : list positive) : Z :=
  Z.of_nat (length (ctors (descs st) l)) + Z.of_nat (length (dtors (descs st) l)) + 2
  + (if max_classes st <=? num_classes st then increment else 0).

(** The registry is consistent: the first [num_classes] slots of [classes]
    hold the bases of distinct live blocks, and the bounds are in order. *)
Definition registry_ok (st : state) : Prop :=
  1 ≤ prte_class_init_epoch st ≤ INT_MAX ∧
  match classes st with
  | None => num_classes st = 0 ∧ max_classes st = 0
  | Some arr =>
      0 ≤ num_classes st ≤ max_classes st ∧
      Z.of_nat (length arr) = max_classes st ∧
      max_classes st ≤ INT_MAX ∧
      max_classes st `mod` increment = 0 ∧
      ∃ bs : list positive,
        take (Z.to_nat (num_classes st)) arr = (λ b, Some (Ptr b 0)) <$> bs ∧
        NoDup bs ∧
        Forall (λ b, is_Some (heap st !! b)) bs
  end.

(** The states the process can be in: it starts with some descriptors and
    some memory, and calls the two operations. *)
Inductive reachable : state → Prop :=
| reach_start d avail :
    reachable (initial_state d avail)
| reach_initialize fuel st cls st' :
    reachable st →
    prte_class_initialize fuel st cls = Done st' →
    reachable st'
| reach_finalize st r st' :
    reachable st →
    prte_class_finalize st = Done (r, st') →
    reachable st'.

(** The slots the allocator could hand out if the registry were empty: the
    finalisation gives back every registered block and the [classes]
    array. *)
Definition mem_total (st : state) : Z :=
  mem_avail st + freed_slots (heap st) (registered st)
  + Z.of_nat (length (default [] (classes st))).

(** ** A three-level hierarchy [A <- B <- C], and a lone root class *)

Module Demo.
Definition A : positive := 1%positive.
Definition B : positive := 2%positive.
Definition C : positive := 3%positive.
Definition A_ctor : positive := 11%positive.
Definition B_dtor : positive := 22%positive.
Definition C_ctor : positive := 31%positive.
Definition C_dtor : positive := 32%positive.

(** Modelled from the spec: a descriptor as its declaration leaves it, before
    any initialisation: stamp 0, depth 0, no chains.  The macro that
    instantiates descriptors is in [prte_object.h], which is not part of the
    sources. *)
Definition declare (name : string) (parent : option positive)
    (ctor dtor : fnptr) : prte_class_t := {|
  cls_name := name; cls_parent := parent;
  cls_construct := ctor; cls_destruct := dtor;
  cls_initialized := 0; cls_depth := 0;
  cls_construct_array := NULL; cls_destruct_array := NULL;
  cls_sizeof := 16 |}.

Definition C_decl : prte_class_t :=
  declare "C" (Some B) (Some C_ctor) (Some C_dtor).

Definition store : gmap positive prte_class_t :=
  <[C := C_decl]>
    (<[B := declare "B" (Some A) None (Some B_dtor)]>
       (<[A := declare "A" None (Some A_ctor) None]> ∅)).

Definition chain : list positive := [C; B; A].

Definition start : state := initial_state store 1000.

(** [start] with the epoch counter at its maximum. *)
Definition maxed : state := {|
  descs := store; heap := ∅; mem_avail := 1000;
  prte_class_init_epoch := INT_MAX;
  classes := None; num_classes := 0; max_classes := 0 |}.

(** [start] after the initialisation of [C]. *)
Definition after_C : state := initialized_state start C C_decl chain.

(** The root class alone. *)
Definition root : positive := 1%positive.
Definition root_start : state :=
  initial_state {[root := prte_object_t_class 16]} 100.
End Demo.

(** A call of one of the two operations, and a sequence of calls. *)
Inductive call : Type :=
| Initialize (fuel : nat) (cls : positive)
| Finalize.

Definition do_call (c : call) (st : state) : outcome state :=
  match c with
  | Initialize fuel cls => prte_class_initialize fuel st cls
  | Finalize => '(_, st') ← prte_class_finalize st; Done st'
  end.

Fixpoint run (cs : list call) (st : state) : outcome state :=
  match cs with
  | [] => Done st
  | c :: cs' => st' ← do_call c st; run cs' st'
  end.

Definition is_initialize (c : call) : Prop :=
  match c with Initialize _ _ => True | Finalize => False end.

(** The descriptor of [a] has been initialised in the current epoch: its
    stamp is current, its depth is the length of its chain [l], and its two
    arrays are the two parts of one live block that holds the chains. *)
Definition initialized_in (st : state) (a : positive) (l : list positive) : Prop :=
  ∃ cd b,
    descs st !! a = Some cd ∧
    cls_initialized cd = prte_class_init_epoch st ∧
    cls_depth cd = Z.of_nat (length l) ∧
    cls_construct_array cd = Ptr b 0 ∧
    cls_destruct_array cd = Ptr b (Z.of_nat (length (ctors (descs st) l)) + 1) ∧
    heap st !! b = Some (chain_block (ctors (descs st) l) (dtors (descs st) l)).

(** The class [n] parent links above [c]; [None] past the root. *)
Fixpoint nth_parent (n : nat) (d : gmap positive prte_class_t)
    (c : option positive) : option positive :=
  match n with
  | O => c
  | S n' => nth_parent n' d (c ≫= λ a, d !! a ≫= cls_parent)
  end.

(** [n] finalisations in a row. *)
Definition finalize_times (n : N) (st : state) : outcome state :=
  N.iter n (λ o, s ← o; do_call Finalize s) (Done st).

(** ** More inputs: little memory, a parent cycle *)

Module Inputs.
(** [Demo.start] with 10 slots of memory: enough for the block of [C], not
    for the registry as well. *)
Definition tight : state := initial_state Demo.store 10.

(** [Demo.start] with 5 slots of memory: not enough for the block of [C]. *)
Definition tiny : state := initial_state Demo.store 5.

(** Two classes that name each other as parent. *)
Definition P : positive := 1%positive.
Definition Q : positive := 2%positive.
Definition looped : state :=
  initial_state (<[P := Demo.declare "P" (Some Q) None None]>
                   (<[Q := Demo.declare "Q" (Some P) None None]> ∅)) 1000.

(** A registry that is full: ten classes without parent, all initialised. *)
Definition ten_classes : gmap positive prte_class_t :=
  list_to_map ((λ a, (a, Demo.declare "K" None None None))
               <$> [1; 2; 3; 4; 5; 6; 7; 8; 9; 10; 11]%positive).
Definition ten_calls : list call :=
  (λ a, Initialize 1 a) <$> [1; 2; 3; 4; 5; 6; 7; 8; 9; 10]%positive.
(** The state after the ten calls. *)
Definition full : state :=
  if run ten_calls (initial_state ten_classes 1000) is Done st then st
  else initial_state ten_classes 1000.
End Inputs.

(** * Properties *)

(** Componentwise equality of the tuples the loops return. *)
Ltac split_tuple :=
  repeat first [apply (f_equal Done) | apply (f_equal2 pair)]; try reflexivity.

Lemma int_add_Done x y :
  INT_MIN ≤ x + y ≤ INT_MAX → int_add x y = Done (x + y).
Proof.
  intros [Hlo Hhi]. unfold int_add.
  apply Z.leb_le in Hlo, Hhi. by rewrite Hlo, Hhi.
Qed.

(** *** Declarations are never written *)

Lemma ancestors_insert fuel d cls c0 c' c :
  d !! cls = Some c0 → decl c' = decl c0 →
  ancestors fuel (<[cls := c']> d) c = ancestors fuel d c.
Proof.
  intros Hc0 Hd. revert c. induction fuel as [|fuel IH]; intros [a|]; try done.
  simpl. destruct (decide (a = cls)) as [->|Hne].
  - rewrite lookup_insert_eq, Hc0. simpl.
    injection Hd as -> _ _. by rewrite IH.
  - rewrite lookup_insert_ne by done.
    destruct (d !! a) as [cd|]; simpl; [|done]. by rewrite IH.
Qed.

Lemma ctors_cons d a l :
  ctors d (a :: l)
  = match d !! a ≫= cls_construct with
    | Some f => f :: ctors d l
    | None => ctors d l
    end.
Proof. reflexivity. Qed.

Lemma dtors_cons d a l :
  dtors d (a :: l)
  = match d !! a ≫= cls_destruct with
    | Some f => f :: dtors d l
    | None => dtors d l
    end.
Proof. reflexivity. Qed.

Lemma ctors_insert d cls c0 c' l :
  d !! cls = Some c0 → decl c' = decl c0 →
  ctors (<[cls := c']> d) l = ctors d l.
Proof.
  intros Hc0 Hd. induction l as [|a l IH]; [done|].
  rewrite !ctors_cons, IH. destruct (decide (a = cls)) as [->|Hne].
  - rewrite lookup_insert_eq, Hc0. simpl. by injection Hd as _ -> _.
  - by rewrite lookup_insert_ne.
Qed.

Lemma dtors_insert d cls c0 c' l :
  d !! cls = Some c0 → decl c' = decl c0 →
  dtors (<[cls := c']> d) l = dtors d l.
Proof.
  intros Hc0 Hd. induction l as [|a l IH]; [done|].
  rewrite !dtors_cons, IH. destruct (decide (a = cls)) as [->|Hne].
  - rewrite lookup_insert_eq, Hc0. simpl. by injection Hd as _ _ ->.
  - by rewrite lookup_insert_ne.
Qed.

Lemma length_ctors_le d l : (length (ctors d l) ≤ length l)%nat.
Proof.
  induction l as [|a l IH]; [done|].
  rewrite ctors_cons. destruct (d !! a ≫= cls_construct); simpl; lia.
Qed.

Lemma length_dtors_le d l : (length (dtors d l) ≤ length l)%nat.
Proof.
  induction l as [|a l IH]; [done|].
  rewrite dtors_cons. destruct (d !! a ≫= cls_destruct); simpl; lia.
Qed.

(** *** The counting loop *)

Lemma count_loop_spec cls c1 dbase fuel :
  dbase !! cls = Some c1 →
  ∀ l c k nc nd,
    ancestors fuel dbase c = Some l →
    0 ≤ k → 0 ≤ nc → 0 ≤ nd →
    k + Z.of_nat (length l) ≤ INT_MAX →
    nc + Z.of_nat (length l) ≤ INT_MAX →
    nd + Z.of_nat (length l) ≤ INT_MAX →
    count_loop fuel cls (<[cls := set_depth k c1]> dbase) c nc nd
    = Done (<[cls := set_depth (k + Z.of_nat (length l)) c1]> dbase,
            nc + Z.of_nat (length (ctors dbase l)),
            nd + Z.of_nat (length (dtors dbase l))).
Proof.
  intros Hc1. induction fuel as [|fuel IH]; intros l [a|] k nc nd Hanc Hk Hnc Hnd Hk' Hnc' Hnd'.
  - done.
  - simpl in Hanc. injection Hanc as <-. simpl. by rewrite !Z.add_0_r.
  - simpl in Hanc.
    destruct (dbase !! a) as [cd|] eqn:Ha; simpl in Hanc; [|done].
    destruct (ancestors fuel dbase (cls_parent cd)) as [l'|] eqn:Hl'; simpl in Hanc; [|done].
    injection Hanc as <-. cbn [length] in *.
    assert (Hcd : ∃ cd', <[cls := set_depth k c1]> dbase !! a = Some cd' ∧ decl cd' = decl cd).
    { destruct (decide (a = cls)) as [->|Hne].
      - rewrite lookup_insert_eq. eexists; split; [done|]. by simplify_eq.
      - rewrite lookup_insert_ne by done. eauto. }
    destruct Hcd as (cd' & Hcd' & Hdecl). injection Hdecl as Hp Hc Hd.
    cbn [count_loop deref]. rewrite Hcd'. cbn [mbind outcome_bind].
    rewrite lookup_insert_eq. cbn [mbind outcome_bind].
    change (cls_depth (set_depth k c1)) with k.
    rewrite ctors_cons, dtors_cons, Ha. cbn [mbind option_bind].
    pose proof (length_ctors_le dbase l') as Hlc.
    pose proof (length_dtors_le dbase l') as Hld.
    rewrite Hc, Hd.
    assert (Hins : <[cls := set_depth (k + 1) (set_depth k c1)]> (<[cls := set_depth k c1]> dbase)
                   = <[cls := set_depth (k + 1) c1]> dbase).
    { by rewrite insert_insert_eq. }
    assert (Hcd2 : ∃ cd2, <[cls := set_depth (k + 1) c1]> dbase !! a = Some cd2
                          ∧ cls_parent cd2 = cls_parent cd).
    { destruct (decide (a = cls)) as [->|Hne].
      - rewrite lookup_insert_eq. eexists; split; [done|]. by simplify_eq.
      - rewrite lookup_insert_ne by done. eauto. }
    destruct Hcd2 as (cd2 & Hcd2 & Hp2).
    unfold INT_MIN, INT_MAX in *.
    destruct (cls_construct cd) as [f|], (cls_destruct cd) as [g|];
      cbn [mbind outcome_bind];
      rewrite !int_add_Done by (unfold INT_MIN, INT_MAX; lia);
      cbn [mbind outcome_bind];
      rewrite Hins, Hcd2; cbn [mbind outcome_bind]; rewrite Hp2;
      (rewrite (IH l') by (done || lia));
      cbn [length]; by rewrite ?Nat2Z.inj_succ, <- ?Z.add_1_l, ?Z.add_assoc.
  - simpl in Hanc. injection Hanc as <-. simpl. by rewrite !Z.add_0_r.
Qed.

(** *** The filling loop *)

Lemma store_slot_Done h b blk (i : nat) z v :
  h !! b = Some blk → z = Z.of_nat i → (i < length blk)%nat →
  store_slot h (Ptr b z) v = Done (<[b := <[i := Some v]> blk]> h).
Proof.
  intros Hb -> Hi. unfold store_slot. rewrite Hb.
  assert (H1 : (0 <=? Z.of_nat i) = true) by (apply Z.leb_le; lia).
  assert (H2 : (Z.of_nat i <? Z.of_nat (length blk)) = true) by (apply Z.ltb_lt; lia).
  by rewrite H1, H2, Nat2Z.id.
Qed.

Lemma insert_end_of_prefix {A} (U R : list A) v :
  (0 < length U)%nat →
  <[(length U - 1)%nat := v]> (U ++ R) = take (length U - 1) U ++ v :: R.
Proof.
  destruct U as [|u U _] using rev_ind; simpl; [lia|]. intros _.
  rewrite length_app. simpl.
  replace (length U + 1 - 1)%nat with (length U) by lia.
  rewrite take_app_length, <- (assoc_L (++)). simpl.
  rewrite <- (Nat.add_0_r (length U)) at 1. by rewrite insert_app_r.
Qed.

Lemma insert_start_of_suffix {A} (P U : list A) v :
  (0 < length U)%nat →
  <[length P := v]> (P ++ U) = P ++ v :: drop 1 U.
Proof.
  destruct U as [|u U]; simpl; [lia|]. intros _.
  rewrite <- (Nat.add_0_r (length P)) at 1. by rewrite insert_app_r, drop_0.
Qed.

Lemma fill_body_spec d h b (U1 M U2 : block) a cd i :
  d !! a = Some cd →
  h !! b = Some (U1 ++ M ++ U2) →
  (length (option_list (cls_construct cd)) ≤ length U1)%nat →
  (length (option_list (cls_destruct cd)) ≤ length U2)%nat →
  let U1' := take (length U1 - length (option_list (cls_construct cd))) U1 in
  let M' := (fn_slot <$> option_list (cls_construct cd)) ++ M
            ++ (fn_slot <$> option_list (cls_destruct cd)) in
  let U2' := drop (length (option_list (cls_destruct cd))) U2 in
  fill_body d i (h, Some a, Ptr b (Z.of_nat (length U1)),
                 Ptr b (Z.of_nat (length U1 + length M)))
  = Done (<[b := U1' ++ M' ++ U2']> h, cls_parent cd,
          Ptr b (Z.of_nat (length U1')),
          Ptr b (Z.of_nat (length U1' + length M'))).
Proof.
  intros Ha Hb Hc Hd. unfold fill_body, deref. rewrite Ha. cbn [mbind outcome_bind].
  destruct (cls_construct cd) as [f|], (cls_destruct cd) as [g|];
    simpl in Hc, Hd; simpl option_list;
    cbn [length fmap list_fmap app ptr_add mbind outcome_bind].
  - rewrite (store_slot_Done _ _ _ (length U1 - 1) _ _ Hb)
      by (rewrite ?length_app; lia).
    cbn [mbind outcome_bind].
    rewrite insert_end_of_prefix by lia.
    erewrite (store_slot_Done _ b _ (length U1 + length M));
      [|by rewrite lookup_insert_eq|done
       |rewrite length_app, length_take; simpl; rewrite length_app; lia].
    cbn [mbind outcome_bind]. rewrite insert_insert_eq.
    rewrite length_take, length_app, Nat.min_l by lia. simpl.
    split_tuple; try (f_equal; lia).
    f_equal.
    replace (take (length U1 - 1) U1 ++ Some (Some f) :: M ++ U2)
      with ((take (length U1 - 1) U1 ++ Some (Some f) :: M) ++ U2)
      by (by rewrite <- (assoc_L (++))).
    replace (length U1 + length M)%nat
      with (length (take (length U1 - 1) U1 ++ Some (Some f) :: M))
      by (rewrite length_app, length_take; simpl; lia).
    rewrite insert_start_of_suffix by lia.
    rewrite <- ?(assoc_L (++)). simpl. by rewrite <- ?(assoc_L (++)).
  - rewrite (store_slot_Done _ _ _ (length U1 - 1) _ _ Hb)
      by (rewrite ?length_app; lia).
    cbn [mbind outcome_bind].
    rewrite insert_end_of_prefix by lia.
    rewrite length_take, Nat.min_l, drop_0, app_nil_r by lia. simpl.
    split_tuple; f_equal; lia.
  - rewrite Nat.sub_0_r, take_ge by lia.
    erewrite (store_slot_Done _ b _ (length U1 + length M));
      [|done|done|rewrite !length_app; lia].
    cbn [mbind outcome_bind].
    split_tuple; try (f_equal; rewrite length_app; simpl; lia).
    f_equal.
    replace (U1 ++ M ++ U2) with ((U1 ++ M) ++ U2) by (by rewrite <- (assoc_L (++))).
    replace (length U1 + length M)%nat with (length (U1 ++ M)) by (by rewrite length_app).
    rewrite insert_start_of_suffix by lia.
    by rewrite <- ?(assoc_L (++)).
  - rewrite Nat.sub_0_r, take_ge, drop_0, app_nil_r by lia.
    by rewrite insert_id.
Qed.

Lemma ctors_cons_app d a l :
  ctors d (a :: l) = option_list (d !! a ≫= cls_construct) ++ ctors d l.
Proof. rewrite ctors_cons. by destruct (d !! a ≫= cls_construct). Qed.

Lemma dtors_cons_app d a l :
  dtors d (a :: l) = option_list (d !! a ≫= cls_destruct) ++ dtors d l.
Proof. rewrite dtors_cons. by destruct (d !! a ≫= cls_destruct). Qed.

Lemma reverse_option_list {A} (o : option A) :
  reverse (option_list o) = option_list o.
Proof. by destruct o. Qed.

Lemma fill_loop_spec d b fuel :
  ∀ l c h (U1 M U2 : block) i,
    ancestors fuel d c = Some l →
    h !! b = Some (U1 ++ M ++ U2) →
    (length (ctors d l) ≤ length U1)%nat →
    (length (dtors d l) ≤ length U2)%nat →
    for_loop (length l) i (fill_body d)
      (h, c, Ptr b (Z.of_nat (length U1)), Ptr b (Z.of_nat (length U1 + length M)))
    = Done (<[b := take (length U1 - length (ctors d l)) U1
                   ++ ((fn_slot <$> reverse (ctors d l)) ++ M ++ (fn_slot <$> dtors d l))
                   ++ drop (length (dtors d l)) U2]> h,
            None,
            Ptr b (Z.of_nat (length U1 - length (ctors d l))),
            Ptr b (Z.of_nat (length U1 + length M + length (dtors d l)))).
Proof.
  assert (Hnil : ∀ h (U1 M U2 : block) i,
    h !! b = Some (U1 ++ M ++ U2) →
    for_loop 0 i (fill_body d)
      (h, None, Ptr b (Z.of_nat (length U1)), Ptr b (Z.of_nat (length U1 + length M)))
    = Done (<[b := take (length U1 - 0) U1 ++ ([] ++ M ++ []) ++ drop 0 U2]> h,
            None, Ptr b (Z.of_nat (length U1 - 0)),
            Ptr b (Z.of_nat (length U1 + length M + 0)))).
  { intros h U1 M U2 i Hb. simpl.
    rewrite Nat.sub_0_r, Nat.add_0_r, take_ge, app_nil_r by lia.
    by rewrite insert_id. }
  induction fuel as [|fuel IH]; intros l [a|] h U1 M U2 i Hanc Hb Hc Hd.
  - done.
  - injection Hanc as <-. by apply Hnil.
  - simpl in Hanc.
    destruct (d !! a) as [cd|] eqn:Ha; simpl in Hanc; [|done].
    destruct (ancestors fuel d (cls_parent cd)) as [l'|] eqn:Hl'; simpl in Hanc; [|done].
    injection Hanc as <-.
    rewrite ctors_cons_app, Ha in Hc. rewrite dtors_cons_app, Ha in Hd.
    rewrite ctors_cons_app, dtors_cons_app, Ha.
    cbn [mbind option_bind] in Hc, Hd |- *.
    rewrite length_app in Hc, Hd.
    cbn [length for_loop].
    rewrite (fill_body_spec d h b U1 M U2 a cd i Ha Hb) by lia.
    cbn [mbind outcome_bind].
    set (n1 := length (option_list (cls_construct cd))) in *.
    set (n2 := length (option_list (cls_destruct cd))) in *.
    rewrite (IH l' _ _ (take (length U1 - n1) U1)
               ((fn_slot <$> option_list (cls_construct cd)) ++ M
                ++ (fn_slot <$> option_list (cls_destruct cd)))
               (drop n2 U2)) by
      (first [done | by rewrite lookup_insert_eq
             | rewrite length_take; lia | rewrite length_drop; lia]).
    rewrite insert_insert_eq.
    rewrite take_take, drop_drop, length_take, !length_app, !length_fmap.
    fold n1 n2.
    rewrite reverse_app, reverse_option_list, !fmap_app.
    replace (length U1 - n1 - length (ctors d l') `min` (length U1 - n1))%nat
      with (length U1 - (n1 + length (ctors d l')))%nat by lia.
    rewrite !Nat.min_l by lia.
    split_tuple; try (f_equal; lia).
    replace (length U1 - n1 - length (ctors d l'))%nat
      with (length U1 - (n1 + length (ctors d l')))%nat by lia.
    by rewrite <- !(assoc_L (++)).
  - injection Hanc as <-. by apply Hnil.
Qed.

(** *** The registry *)

Lemma array_set_Done a (n : nat) i v :
  i = Z.of_nat n → (n < length a)%nat →
  array_set a i v = Done (<[n := Some v]> a).
Proof.
  intros -> Hn. unfold array_set.
  assert (H1 : (0 <=? Z.of_nat n) = true) by (apply Z.leb_le; lia).
  assert (H2 : (Z.of_nat n <? Z.of_nat (length a)) = true) by (apply Z.ltb_lt; lia).
  by rewrite H1, H2, Nat2Z.id.
Qed.

Lemma null_loop_spec (k : nat) :
  ∀ (pre : list (option ptr)) i,
    i = Z.of_nat (length pre) →
    for_loop k i (λ i a, array_set a i NULL) (pre ++ replicate k None)
    = Done (pre ++ replicate k (Some NULL)).
Proof.
  induction k as [|k IH]; intros pre i Hi; [done|].
  cbn [for_loop replicate].
  rewrite (array_set_Done _ (length pre) _ _ Hi)
    by (rewrite length_app; simpl; lia).
  cbn [mbind outcome_bind].
  rewrite <- (Nat.add_0_r (length pre)) at 1. rewrite insert_app_r. simpl.
  rewrite (cons_middle (Some NULL) pre), (assoc_L (++)).
  rewrite IH by (rewrite length_app; simpl; lia).
  by rewrite <- (assoc_L (++)).
Qed.

Lemma expand_array_spec st :
  registry_ok st →
  max_classes st ≤ num_classes st →
  max_classes st + increment ≤ INT_MAX →
  increment ≤ mem_avail st →
  expand_array st
  = Done {| descs := descs st; heap := heap st;
            mem_avail := mem_avail st - increment;
            prte_class_init_epoch := prte_class_init_epoch st;
            classes := Some (default [] (classes st)
                             ++ replicate (Z.to_nat increment) (Some NULL));
            num_classes := num_classes st;
            max_classes := max_classes st + increment |}.
Proof.
  intros [_ Hreg] Hfull Hmax Hmem. unfold expand_array, increment in *.
  assert (Hlen : Z.of_nat (length (default [] (classes st))) = max_classes st
                 ∧ num_classes st = max_classes st ∧ 0 ≤ max_classes st).
  { destruct (classes st) as [arr|]; simpl; [|lia].
    destruct Hreg as (? & ? & ? & _). lia. }
  destruct Hlen as (Hlen & Hnum & Hpos).
  rewrite int_add_Done by (unfold INT_MIN, INT_MAX in *; lia).
  cbn [mbind outcome_bind]. unfold realloc. rewrite Hlen.
  assert (H1 : (0 <? max_classes st + 10) = true) by (apply Z.ltb_lt; lia).
  assert (H2 : (max_classes st + 10 - max_classes st <=? mem_avail st) = true)
    by (apply Z.leb_le; lia).
  rewrite H1, H2. cbn [andb].
  rewrite take_ge by lia.
  rewrite Hnum at 1.
  replace (max_classes st + 10 - max_classes st) with 10 by lia.
  rewrite null_loop_spec by lia.
  done.
Qed.

Lemma save_class_spec st cls cd :
  registry_ok st →
  descs st !! cls = Some cd →
  (max_classes st ≤ num_classes st → max_classes st + increment ≤ INT_MAX) →
  (if max_classes st <=? num_classes st then increment else 0) ≤ mem_avail st →
  let grow := max_classes st <=? num_classes st in
  save_class st cls
  = Done {| descs := descs st; heap := heap st;
            mem_avail := mem_avail st - (if grow then increment else 0);
            prte_class_init_epoch := prte_class_init_epoch st;
            classes := Some (<[Z.to_nat (num_classes st) := Some (cls_construct_array cd)]>
                               (default [] (classes st)
                                ++ (if grow
                                    then replicate (Z.to_nat increment) (Some NULL)
                                    else [])));
            num_classes := num_classes st + 1;
            max_classes := max_classes st + (if grow then increment else 0) |}.
Proof.
  intros Hreg Hcd Hmax Hmem grow. unfold save_class. subst grow.
  destruct (max_classes st <=? num_classes st) eqn:Hgrow.
  - apply Z.leb_le in Hgrow. specialize (Hmax Hgrow).
    rewrite expand_array_spec by done.
    cbn [mbind outcome_bind descs classes num_classes max_classes mem_avail heap
         prte_class_init_epoch deref].
    rewrite Hcd. cbn [mbind outcome_bind].
    destruct Hreg as [_ Hreg].
    assert (Hlen : Z.of_nat (length (default [] (classes st))) = max_classes st
                   ∧ num_classes st = max_classes st ∧ 0 ≤ max_classes st).
    { destruct (classes st) as [arr|]; simpl; [|lia].
      destruct Hreg as (? & ? & ? & _). lia. }
    destruct Hlen as (Hlen & Hnum & Hpos).
    rewrite (array_set_Done _ (Z.to_nat (num_classes st)))
      by (rewrite ?length_app, ?length_replicate; unfold increment; lia).
    cbn [mbind outcome_bind].
    rewrite int_add_Done by (unfold INT_MIN, INT_MAX, increment in *; lia).
    done.
  - apply Z.leb_gt in Hgrow.
    cbn [mbind outcome_bind deref]. rewrite Hcd. cbn [mbind outcome_bind].
    destruct Hreg as [_ Hreg].
    destruct (classes st) as [arr|]; [|lia].
    destruct Hreg as (Hb & Hlen & Hmx & _).
    cbn [mbind outcome_bind].
    rewrite (array_set_Done _ (Z.to_nat (num_classes st))) by lia.
    cbn [mbind outcome_bind default].
    rewrite int_add_Done by (unfold INT_MIN, INT_MAX in *; lia).
    cbn [mbind outcome_bind]. by rewrite app_nil_r, !Z.add_0_r, Z.sub_0_r.
Qed.

(** *** Initialisation, end to end *)

Lemma registry_ok_frame st st' :
  prte_class_init_epoch st' = prte_class_init_epoch st →
  classes st' = classes st →
  num_classes st' = num_classes st →
  max_classes st' = max_classes st →
  (∀ b, is_Some (heap st !! b) → is_Some (heap st' !! b)) →
  registry_ok st → registry_ok st'.
Proof.
  intros He Hc Hn Hm Hh [Hep Hreg]. split; [by rewrite He|].
  rewrite Hc, Hn, Hm. destruct (classes st) as [arr|]; [|done].
  destruct Hreg as (? & ? & ? & ? & bs & ? & ? & Hlive).
  do 4 (split; [done|]). exists bs. do 2 (split; [done|]).
  eapply Forall_impl; [exact Hlive|]. intros b. apply Hh.
Qed.

Lemma insert_replicate_middle {A} (n m : nat) (x v : A) :
  <[n := v]> (replicate (n + S m) x) = replicate n x ++ [v] ++ replicate m x.
Proof.
  rewrite replicate_add. simpl.
  rewrite <- (length_replicate n x) at 1.
  rewrite <- (Nat.add_0_r (length (replicate n x))).
  by rewrite insert_app_r.
Qed.

Lemma initialize_current fuel st cls cd :
  descs st !! cls = Some cd →
  cls_initialized cd = prte_class_init_epoch st →
  prte_class_initialize fuel st cls = Done st.
Proof.
  intros Hcd He. unfold prte_class_initialize, deref. rewrite Hcd.
  cbn [mbind outcome_bind]. by rewrite He, Z.eqb_refl.
Qed.

Lemma initialize_to_save fuel st cls cd l :
  descs st !! cls = Some cd →
  cls_initialized cd ≠ prte_class_init_epoch st →
  ancestors fuel (descs st) (Some cls) = Some l →
  Z.of_nat (length l) ≤ INT_MAX →
  Z.of_nat (length (ctors (descs st) l)) + Z.of_nat (length (dtors (descs st) l)) + 2
    ≤ INT_MAX →
  Z.of_nat (length (ctors (descs st) l)) + Z.of_nat (length (dtors (descs st) l)) + 2
    ≤ mem_avail st →
  prte_class_initialize fuel st cls
  = save_class (pre_save_state st cls cd l) cls.
Proof.
  intros Hcd Hstale Hanc Hsize Hsize2 Hmem.
  pose proof (length_ctors_le (descs st) l) as Hlc.
  pose proof (length_dtors_le (descs st) l) as Hld.
  unfold pre_save_state, initialized_class.
  set (cs := ctors (descs st) l) in *. set (ds := dtors (descs st) l) in *.
  set (e := prte_class_init_epoch st) in *.
  unfold prte_class_initialize. cbn [deref]. rewrite Hcd. cbn [mbind outcome_bind].
  fold e.
  assert (He : (e =? cls_initialized cd) = false) by (apply Z.eqb_neq; congruence).
  rewrite He.
  rewrite (count_loop_spec cls cd (descs st) fuel Hcd l)
    by (done || unfold INT_MAX in *; lia).
  cbn [mbind outcome_bind]. fold cs ds. rewrite !Z.add_0_l.
  rewrite int_add_Done by (unfold INT_MIN, INT_MAX in *; lia).
  cbn [mbind outcome_bind].
  rewrite int_add_Done by (unfold INT_MIN, INT_MAX in *; lia).
  cbn [mbind outcome_bind].
  set (nc := Z.of_nat (length cs)) in *. set (nd := Z.of_nat (length ds)) in *.
  unfold malloc.
  assert (H1 : (0 <? nc + nd + 2) = true) by (apply Z.ltb_lt; lia).
  assert (H2 : (nc + nd + 2 <=? mem_avail st) = true).
  { apply Z.leb_le. lia. }
  rewrite H1, H2. cbn [andb].
  set (b := fresh (dom (heap st))).
  rewrite !lookup_insert_eq. cbn [mbind outcome_bind]. rewrite !insert_insert_eq.
  rewrite !lookup_insert_eq. cbn [mbind outcome_bind]. rewrite !insert_insert_eq.
  rewrite !lookup_insert_eq. cbn [mbind outcome_bind].
  cbn [cls_construct_array cls_destruct_array cls_depth set_construct_array
       set_destruct_array set_depth ptr_add].
  rewrite Z.add_0_l, Z.sub_0_r, Nat2Z.id.
set (c4 := set_destruct_array (Ptr b (nc + 1))
               (set_construct_array (Ptr b 0) (set_depth (Z.of_nat (length l)) cd))).
  set (d4 := <[cls := c4]> (descs st)).
  assert (Hanc4 : ancestors fuel d4 (Some cls) = Some l)
    by (unfold d4; by rewrite (ancestors_insert _ _ _ cd)).
  assert (Hcs4 : ctors d4 l = cs) by (unfold d4; by rewrite (ctors_insert _ _ cd)).
  assert (Hds4 : dtors d4 l = ds) by (unfold d4; by rewrite (dtors_insert _ _ cd)).
  set (U1 := replicate (length cs) (@None fnptr)).
  set (M := [Some (@None positive)]).
  set (U2 := replicate (S (length ds)) (@None fnptr)).
  assert (HU1 : length U1 = length cs) by apply length_replicate.
  assert (HU2 : length U2 = S (length ds)) by apply length_replicate.
  rewrite (store_slot_Done _ b _ (length cs) nc None (lookup_insert_eq _ _ _))
    by (done || rewrite length_replicate; lia).
  cbn [mbind outcome_bind]. rewrite insert_insert_eq.
  replace (Z.to_nat (nc + nd + 2)) with (length cs + S (S (length ds)))%nat by lia.
  rewrite insert_replicate_middle. fold U1 U2.
  replace (Ptr b nc) with (Ptr b (Z.of_nat (length U1))) by (f_equal; lia).
  replace (Ptr b (nc + 1)) with (Ptr b (Z.of_nat (length U1 + length M)))
    by (f_equal; simpl; lia).
  rewrite (fill_loop_spec d4 b fuel l (Some cls) _ U1 [Some None] U2 0 Hanc4
             (lookup_insert_eq _ _ _)) by (rewrite ?Hcs4, ?Hds4; lia).
  cbn [mbind outcome_bind]. rewrite insert_insert_eq, Hcs4, Hds4.
  assert (Hblk : take (length U1 - length cs) U1
                 ++ ((fn_slot <$> reverse cs) ++ [Some None] ++ (fn_slot <$> ds))
                 ++ drop (length ds) U2
                 = ((fn_slot <$> reverse cs) ++ Some None :: (fn_slot <$> ds)) ++ [None]).
  { rewrite HU1, Nat.sub_diag, take_0. unfold U2.
    rewrite replicate_S_end, drop_app_length'
      by (by rewrite length_replicate).
    simpl. by rewrite <- !(assoc_L (++)). }
  rewrite Hblk.
  rewrite (store_slot_Done _ b _ (length U1 + length M + length ds) _ None
             (lookup_insert_eq _ _ _) eq_refl)
    by (rewrite !length_app, !length_fmap, length_reverse, HU1; simpl;
        rewrite length_fmap; lia).
  cbn [mbind outcome_bind]. rewrite !insert_insert_eq.
  assert (Hblk' : <[(length U1 + length M + length ds)%nat := Some None]>
                    (((fn_slot <$> reverse cs) ++ Some None :: (fn_slot <$> ds)) ++ [None])
                  = chain_block cs ds).
  { replace (length U1 + length M + length ds)%nat
      with (length ((fn_slot <$> reverse cs) ++ Some None :: (fn_slot <$> ds)) + 0)%nat
      by (rewrite length_app, !length_fmap, length_reverse, HU1; simpl;
          rewrite length_fmap; lia).
    rewrite insert_app_r. unfold chain_block. simpl.
    by rewrite <- !(assoc_L (++)). }
  rewrite Hblk'.
unfold d4. by rewrite insert_insert_eq.
Qed.

Lemma registry_ok_pre_save st cls cd l :
  registry_ok st → registry_ok (pre_save_state st cls cd l).
Proof.
  apply registry_ok_frame; try done.
  intros b' Hb'. simpl.
  destruct (decide (fresh (dom (heap st)) = b')) as [<-|Hne].
  - by rewrite lookup_insert_eq.
  - by rewrite lookup_insert_ne.
Qed.

Lemma initialize_stale fuel st cls cd l :
  registry_ok st →
  descs st !! cls = Some cd →
  cls_initialized cd ≠ prte_class_init_epoch st →
  ancestors fuel (descs st) (Some cls) = Some l →
  Z.of_nat (length l) ≤ INT_MAX →
  Z.of_nat (length (ctors (descs st) l)) + Z.of_nat (length (dtors (descs st) l)) + 2
    ≤ INT_MAX →
  (max_classes st ≤ num_classes st → max_classes st + increment ≤ INT_MAX) →
  mem_needed st l ≤ mem_avail st →
  prte_class_initialize fuel st cls = Done (initialized_state st cls cd l).
Proof.
  intros Hreg Hcd Hstale Hanc Hsize Hsize2 Hmax Hmem.
  unfold mem_needed in Hmem.
  assert (Hgrow : 0 ≤ (if max_classes st <=? num_classes st then increment else 0))
    by (unfold increment; destruct (max_classes st <=? num_classes st); lia).
  rewrite (initialize_to_save fuel st cls cd l) by (done || lia).
  pose proof (registry_ok_pre_save st cls cd l Hreg) as Hreg1.
  rewrite (save_class_spec _ cls _ Hreg1 (lookup_insert_eq _ _ _));
    [done|done|simpl; lia].
Qed.

(** *** What a returning call tells *)

Lemma bind_inv {A B} (m : outcome A) (k : A → outcome B) r :
  m ≫= k = Done r → ∃ a, m = Done a ∧ k a = Done r.
Proof. destruct m; simpl; eauto; done. Qed.

Lemma int_add_inv x y z :
  int_add x y = Done z → z = x + y ∧ INT_MIN ≤ x + y ≤ INT_MAX.
Proof.
  unfold int_add.
  destruct (INT_MIN <=? x + y) eqn:H1, (x + y <=? INT_MAX) eqn:H2; simpl; try done.
  intros [= <-]. apply Z.leb_le in H1, H2. lia.
Qed.

Lemma count_loop_inv cls c1 dbase fuel :
  dbase !! cls = Some c1 →
  ∀ c k nc nd r,
    0 ≤ k ≤ INT_MAX →
    count_loop fuel cls (<[cls := set_depth k c1]> dbase) c nc nd = Done r →
    ∃ l, ancestors fuel dbase c = Some l ∧ k + Z.of_nat (length l) ≤ INT_MAX.
Proof.
  intros Hc1. induction fuel as [|fuel IH]; intros [a|] k nc nd r Hk H.
  - done.
  - exists []. simpl. split; [done|lia].
  - cbn [count_loop] in H.
    apply bind_inv in H as (cd' & Hcd' & H).
    apply bind_inv in H as (nc' & _ & H).
    apply bind_inv in H as (nd' & _ & H).
    apply bind_inv in H as (self & Hself & H).
    apply bind_inv in H as (dep & Hdep & H).
    apply bind_inv in H as (cd2 & Hcd2 & H).
    cbn [deref] in Hself. rewrite lookup_insert_eq in Hself.
    injection Hself as <-. apply int_add_inv in Hdep as [-> Hdep].
    change (cls_depth (set_depth k c1)) with k in *.
    rewrite insert_insert_eq in H, Hcd2.
    change (set_depth (k + 1) (set_depth k c1)) with (set_depth (k + 1) c1) in *.
    apply IH in H as (l' & Hl' & Hbound); [|unfold INT_MIN, INT_MAX in *; lia].
    assert (Ha : ∃ cd, dbase !! a = Some cd ∧ cls_parent cd = cls_parent cd2).
    { cbn [deref] in Hcd2. destruct (decide (a = cls)) as [->|Hne].
      - rewrite lookup_insert_eq in Hcd2. injection Hcd2 as <-. eauto.
      - rewrite lookup_insert_ne in Hcd2 by done.
        destruct (dbase !! a) as [cd|]; [|done]. injection Hcd2 as <-. eauto. }
    destruct Ha as (cd & Ha & Hp).
    exists (a :: l'). cbn [ancestors]. rewrite Ha. cbn [mbind option_bind].
    rewrite Hp, Hl'. cbn [mbind option_bind length]. split; [done|lia].
  - exists []. simpl. split; [done|lia].
Qed.

Lemma save_class_inv st cls st' :
  registry_ok st →
  save_class st cls = Done st' →
  max_classes st ≤ num_classes st →
  max_classes st + increment ≤ INT_MAX ∧ increment ≤ mem_avail st.
Proof.
  intros [_ Hreg] H Hgrow. unfold save_class in H.
  apply Z.leb_le in Hgrow. rewrite Hgrow in H.
  apply bind_inv in H as (st1 & H & _). unfold expand_array in H.
  apply bind_inv in H as (max' & Hmax & H).
  apply int_add_inv in Hmax as [-> Hmax].
  assert (Hlen : Z.of_nat (length (default [] (classes st))) = max_classes st
                 ∧ 0 ≤ max_classes st).
  { destruct (classes st) as [arr|]; simpl; [|lia].
    destruct Hreg as (? & ? & ? & _). lia. }
  destruct Hlen as [Hlen Hpos].
  unfold realloc in H. rewrite Hlen in H.
  destruct (0 <? max_classes st + increment); [|done].
  destruct (max_classes st + increment - max_classes st <=? mem_avail st) eqn:Hm;
    [|done].
  apply Z.leb_le in Hm. lia.
Qed.

Lemma initialize_inv fuel st cls st' :
  registry_ok st →
  prte_class_initialize fuel st cls = Done st' →
  ∃ cd, descs st !! cls = Some cd ∧
    ((cls_initialized cd = prte_class_init_epoch st ∧ st' = st) ∨
     (cls_initialized cd ≠ prte_class_init_epoch st ∧
      ∃ l, ancestors fuel (descs st) (Some cls) = Some l ∧
           Z.of_nat (length l) ≤ INT_MAX ∧
           Z.of_nat (length (ctors (descs st) l))
           + Z.of_nat (length (dtors (descs st) l)) + 2 ≤ INT_MAX ∧
           (max_classes st ≤ num_classes st → max_classes st + increment ≤ INT_MAX) ∧
           mem_needed st l ≤ mem_avail st ∧
           st' = initialized_state st cls cd l)).
Proof.
  intros Hreg H. pose proof H as H0. unfold prte_class_initialize in H.
  apply bind_inv in H as (cd & Hcd & H). cbn [deref] in Hcd.
  destruct (descs st !! cls) as [cd'|] eqn:Hcls; [|done]. injection Hcd as ->.
  exists cd. split; [done|].
  destruct (prte_class_init_epoch st =? cls_initialized cd) eqn:He.
  { left. apply Z.eqb_eq in He. by injection H as <-. }
  right. apply Z.eqb_neq in He. split; [done|].
  cbn [deref] in H. rewrite Hcls in H. cbn [mbind outcome_bind] in H.
  apply Z.eqb_neq in He. rewrite He in H. apply Z.eqb_neq in He.
  apply bind_inv in H as ([[d2 nc] nd] & Hcount & H).
  pose proof Hcount as Hcount'.
  apply (count_loop_inv cls cd (descs st) fuel Hcls) in Hcount' as (l & Hanc & Hsize);
    [|unfold INT_MAX; lia].
  rewrite Z.add_0_l in Hsize.
  rewrite (count_loop_spec cls cd (descs st) fuel Hcls l) in Hcount
    by (done || unfold INT_MAX in *; lia).
  injection Hcount as <- <- <-.
  apply bind_inv in H as (n1 & Hn1 & H). apply int_add_inv in Hn1 as [-> Hn1].
  apply bind_inv in H as (n & Hn & H). apply int_add_inv in Hn as [-> Hn].
  rewrite !Z.add_0_l in *.
  unfold malloc in H.
  destruct (0 <? _); [|done].
  destruct (_ <=? mem_avail st) eqn:Hmem; [|done]. apply Z.leb_le in Hmem.
  clear H. exists l. split; [done|].
  rewrite (initialize_to_save fuel st cls cd l) in H0 by (done || lia).
  pose proof (registry_ok_pre_save st cls cd l Hreg) as Hreg1.
  pose proof (save_class_inv _ _ _ Hreg1 H0) as Hsave.
  change (max_classes (pre_save_state st cls cd l)) with (max_classes st) in Hsave.
  change (num_classes (pre_save_state st cls cd l)) with (num_classes st) in Hsave.
  cbn [mem_avail pre_save_state] in Hsave.
  assert (Hgrow : (if max_classes st <=? num_classes st then increment else 0)
                  ≤ mem_avail st - (Z.of_nat (length (ctors (descs st) l))
                                    + Z.of_nat (length (dtors (descs st) l)) + 2)).
  { destruct (max_classes st <=? num_classes st) eqn:Hg.
    - apply Z.leb_le in Hg. by apply Hsave.
    - lia. }
  split; [done|]. split; [lia|]. split; [intros Hg; by apply Hsave|].
  split; [unfold mem_needed; lia|].
  rewrite (save_class_spec _ cls _ Hreg1 (lookup_insert_eq _ _ _)) in H0.
  - by injection H0 as <-.
  - intros Hg. by apply Hsave.
  - done.
Qed.

(** *** The registry invariant *)

Lemma registry_ok_initial d avail : registry_ok (initial_state d avail).
Proof. split; simpl; [unfold INT_MAX; lia|done]. Qed.

Lemma registry_ok_initialized st cls cd l :
  registry_ok st →
  (max_classes st ≤ num_classes st → max_classes st + increment ≤ INT_MAX) →
  registry_ok (initialized_state st cls cd l).
Proof.
  intros [Hep Hreg] Hmax. split; [done|].
  cbn [classes num_classes max_classes heap initialized_state].
  set (b := fresh (dom (heap st))).
  assert (Hfresh : heap st !! b = None)
    by (apply not_elem_of_dom, is_fresh).
  assert (Hshape : ∃ arr bs,
    default [] (classes st) = arr ∧
    0 ≤ num_classes st ≤ max_classes st ∧
    Z.of_nat (length arr) = max_classes st ∧
    max_classes st ≤ INT_MAX ∧
    max_classes st `mod` increment = 0 ∧
    take (Z.to_nat (num_classes st)) arr = (λ b, Some (Ptr b 0)) <$> bs ∧
    NoDup bs ∧ Forall (λ b, is_Some (heap st !! b)) bs).
  { destruct (classes st) as [arr|]; simpl.
    - destruct Hreg as (? & ? & ? & ? & bs & ? & ? & ?). by exists arr, bs.
    - destruct Hreg as [-> ->]. exists [], []. unfold INT_MAX.
      repeat split; try done. constructor. }
  destruct Hshape as (arr & bs & -> & Hnum & Hlen & Hmx & Hmod & Htake & Hnd & Hlive).
  set (grow := max_classes st <=? num_classes st) in *.
  set (arr' := arr ++ (if grow then replicate (Z.to_nat increment) (Some NULL) else [])).
  assert (Hg : (grow = true ∧ num_classes st = max_classes st
                ∧ max_classes st + increment ≤ INT_MAX)
               ∨ (grow = false ∧ num_classes st < max_classes st)).
  { unfold grow. destruct (max_classes st <=? num_classes st) eqn:E.
    - apply Z.leb_le in E. left. split; [done|]. split; [lia|by apply Hmax].
    - apply Z.leb_gt in E. by right. }
  clearbody grow.
  assert (Hlen' : Z.of_nat (length arr')
                  = max_classes st + (if grow then increment else 0)).
  { unfold arr'. rewrite length_app.
    destruct Hg as [(-> & _) | (-> & _)]; rewrite ?length_replicate;
      simpl; unfold increment; lia. }
  assert (Hlt : (Z.to_nat (num_classes st) < length arr')%nat).
  { destruct Hg as [(Hgr & ? & ?) | (Hgr & ?)]; rewrite Hgr in Hlen';
      unfold increment in *; lia. }
  split; [destruct Hg as [(-> & ? & ?) | (-> & ?)]; unfold increment; lia|].
  split; [by rewrite length_insert|].
  split; [destruct Hg as [(-> & ? & ?) | (-> & ?)]; unfold increment in *; lia|].
  split.
  { destruct Hg as [(-> & ? & ?) | (-> & ?)]; [|by rewrite Z.add_0_r].
    rewrite Z.add_mod, Hmod by (unfold increment; lia). done. }
  exists (bs ++ [b]).
  split.
  { replace (Z.to_nat (num_classes st + 1)) with (S (Z.to_nat (num_classes st))) by lia.
    rewrite (take_S_r _ _ (Some (Ptr b 0))) by (by apply list_lookup_insert_eq).
    rewrite take_insert_ge by lia. unfold arr'.
    rewrite take_app_le by lia. by rewrite Htake, fmap_app. }
  split.
  { apply NoDup_app. split; [done|]. split; [|apply NoDup_singleton].
    intros b' Hb' ->%list_elem_of_singleton.
    rewrite Forall_forall in Hlive. apply Hlive in Hb'.
    rewrite Hfresh in Hb'. by destruct Hb'. }
  apply Forall_app. split.
  - eapply Forall_impl; [exact Hlive|]. intros b' Hb'. simpl.
    destruct (decide (b = b')) as [<-|Hne];
      [by rewrite lookup_insert_eq|by rewrite lookup_insert_ne].
  - apply Forall_singleton. by rewrite lookup_insert_eq.
Qed.

(** *** Finalisation *)

Lemma freed_slots_delete h b bs :
  b ∉ bs → freed_slots (delete b h) bs = freed_slots h bs.
Proof.
  induction bs as [|b' bs IH]; [done|]. intros Hb.
  apply not_elem_of_cons in Hb as [Hne Hb]. unfold freed_slots in *. simpl.
  rewrite IH by done. unfold block_size. by rewrite lookup_delete_ne.
Qed.

Lemma free_loop_spec arr n :
  ∀ bs k h avail,
    drop k (take n arr) = (λ b, Some (Ptr b 0)) <$> bs →
    NoDup bs →
    Forall (λ b, is_Some (h !! b)) bs →
    for_loop (length bs) (Z.of_nat k) (free_body arr) (h, avail)
    = Done (foldl (λ h b, delete b h) h bs, avail + freed_slots h bs).
Proof.
  induction bs as [|b bs IH]; intros k h avail Hdrop Hnd Hlive.
  - simpl. by rewrite Z.add_0_r.
  - apply NoDup_cons in Hnd as [Hb Hnd].
    apply Forall_cons in Hlive as [[blk Hblk] Hlive].
    assert (Hk : arr !! k = Some (Some (Ptr b 0))).
    { assert (H : drop k (take n arr) !! 0%nat = Some (Some (Ptr b 0)))
        by (by rewrite Hdrop).
      rewrite lookup_drop, Nat.add_0_r in H.
      by apply lookup_take_Some in H as [H _]. }
    assert (Hdrop' : drop (S k) (take n arr) = (λ b, Some (Ptr b 0)) <$> bs).
    { assert (H : take n arr !! k = Some (Some (Ptr b 0))).
      { assert (H : drop k (take n arr) !! 0%nat = Some (Some (Ptr b 0)))
          by (by rewrite Hdrop).
        by rewrite lookup_drop, Nat.add_0_r in H. }
      apply drop_S in H. rewrite Hdrop in H. simpl in H. by injection H as <-. }
    cbn [length for_loop free_body]. unfold array_get.
    assert (H0 : (0 <=? Z.of_nat k) = true) by (apply Z.leb_le; lia).
    rewrite H0, Nat2Z.id, Hk. cbn [mbind outcome_bind].
    destruct (decide (Ptr b 0 = NULL)) as [?|_]; [done|].
    unfold free. rewrite Hblk. cbn [Z.eqb mbind outcome_bind].
    replace (Z.of_nat k + 1) with (Z.of_nat (S k)) by lia.
    rewrite (IH (S k)); [|done|done|].
    + split_tuple. unfold freed_slots at 2. simpl. fold (freed_slots h bs).
      rewrite freed_slots_delete by done. unfold block_size at 1.
      rewrite Hblk. simpl. lia.
    + rewrite Forall_forall in Hlive |- *. intros b' Hb'.
      rewrite lookup_delete_ne; [by apply Hlive|]. by intros ->.
Qed.

Lemma registered_spec st arr bs :
  default [] (classes st) = arr →
  take (Z.to_nat (num_classes st)) arr = (λ b, Some (Ptr b 0)) <$> bs →
  registered st = bs.
Proof.
  intros Harr Htake. unfold registered. rewrite Harr, Htake.
  clear. induction bs as [|b bs IH]; [done|]. simpl. f_equal. exact IH.
Qed.

Lemma finalize_spec st :
  registry_ok st →
  prte_class_finalize st = Done (PRTE_SUCCESS, finalized_state st).
Proof.
  intros [_ Hreg]. unfold prte_class_finalize, finalized_state.
  fold (next_epoch (prte_class_init_epoch st)).
  destruct (classes st) as [arr|] eqn:Hcls.
  - destruct Hreg as (Hnum & Hlen & Hmx & Hmod & bs & Htake & Hnd & Hlive).
    rewrite (registered_spec st arr bs) by (done || by rewrite Hcls).
    assert (Hn : Z.to_nat (num_classes st - 0) = length bs).
    { rewrite Z.sub_0_r. apply (f_equal length) in Htake.
      rewrite length_take, length_fmap in Htake. lia. }
    rewrite Hn.
    rewrite (free_loop_spec arr (Z.to_nat (num_classes st)) bs 0); try done.
  - destruct Hreg as [Hn Hm].
    unfold registered. rewrite Hcls, Hn, Hm. simpl.
    by rewrite !Z.add_0_r.
Qed.

Lemma next_epoch_range e : 1 ≤ e ≤ INT_MAX → 1 ≤ next_epoch e ≤ INT_MAX.
Proof.
  unfold next_epoch. destruct (INT_MAX =? e) eqn:E.
  - unfold INT_MAX. lia.
  - apply Z.eqb_neq in E. lia.
Qed.

Lemma next_epoch_neq e : next_epoch e ≠ e.
Proof.
  unfold next_epoch. destruct (INT_MAX =? e) eqn:E.
  - apply Z.eqb_eq in E. subst e. done.
  - lia.
Qed.

Lemma registry_ok_finalized st :
  registry_ok st → registry_ok (finalized_state st).
Proof.
  intros [Hep _]. split; [by apply next_epoch_range|done].
Qed.

Theorem reachable_registry_ok st : reachable st → registry_ok st.
Proof.
  induction 1 as [d avail|fuel st cls st' _ IH Hinit|st r st' _ IH Hfin].
  - apply registry_ok_initial.
  - apply (initialize_inv _ _ _ _ IH) in Hinit
      as (cd & Hcd & [[_ ->] | (_ & l & _ & _ & _ & Hmax & _ & ->)]); [done|].
    by apply registry_ok_initialized.
  - rewrite (finalize_spec st IH) in Hfin. injection Hfin as _ <-.
    by apply registry_ok_finalized.
Qed.

(** *** Reading the chains back *)

Lemma load_array_spec h b (vs : list fnptr) :
  ∀ pre post,
    h !! b = Some (pre ++ (Some <$> vs) ++ post) →
    load_array (length vs) h (Ptr b (Z.of_nat (length pre))) = Done vs.
Proof.
  induction vs as [|v vs IH]; intros pre post Hb; [done|].
  cbn [length load_array load_slot]. rewrite Hb.
  assert (H0 : (0 <=? Z.of_nat (length pre)) = true) by (apply Z.leb_le; lia).
  rewrite H0, Nat2Z.id. rewrite fmap_cons. cbn [app].
  rewrite list_lookup_middle by done.
  cbn [mbind outcome_bind ptr_add].
  replace (Z.of_nat (length pre) + 1) with (Z.of_nat (length (pre ++ [Some v])))
    by (rewrite length_app; simpl; lia).
  rewrite (IH (pre ++ [Some v]) post); [done|].
  rewrite Hb. simpl. by rewrite <- (assoc_L (++)).
Qed.

Lemma chain_block_split cs ds :
  chain_block cs ds
  = (Some <$> ((Some <$> reverse cs) ++ [None]))
    ++ (Some <$> ((Some <$> ds) ++ [None])).
Proof.
  unfold chain_block, fn_slot. rewrite !fmap_app, <- !list_fmap_compose. simpl.
  by rewrite <- (assoc_L (++)).
Qed.

Lemma length_chain_block cs ds :
  length (chain_block cs ds) = (length cs + length ds + 2)%nat.
Proof.
  unfold chain_block. rewrite length_app, length_fmap, length_reverse. simpl.
  rewrite length_app, length_fmap. simpl. lia.
Qed.

Lemma load_construct_chain h b cs ds :
  h !! b = Some (chain_block cs ds) →
  load_array (S (length cs)) h (Ptr b 0) = Done ((Some <$> reverse cs) ++ [None]).
Proof.
  intros Hb. rewrite chain_block_split in Hb.
  replace (S (length cs)) with (length ((Some <$> reverse cs) ++ [@None positive]))
    by (rewrite length_app, length_fmap, length_reverse; simpl; lia).
  exact (load_array_spec h b ((Some <$> reverse cs) ++ [None]) []
           (Some <$> ((Some <$> ds) ++ [None])) Hb).
Qed.

Lemma load_destruct_chain h b cs ds :
  h !! b = Some (chain_block cs ds) →
  load_array (S (length ds)) h (Ptr b (Z.of_nat (length cs) + 1))
  = Done ((Some <$> ds) ++ [None]).
Proof.
  intros Hb. rewrite chain_block_split in Hb.
  replace (S (length ds)) with (length ((Some <$> ds) ++ [@None positive]))
    by (rewrite length_app, length_fmap; simpl; lia).
  replace (Z.of_nat (length cs) + 1)
    with (Z.of_nat (length (Some <$> ((Some <$> reverse cs) ++ [@None positive]))))
    by (rewrite length_fmap, length_app, length_fmap, length_reverse; simpl; lia).
  apply (load_array_spec h b ((Some <$> ds) ++ [None])
           (Some <$> ((Some <$> reverse cs) ++ [None])) []).
  by rewrite app_nil_r.
Qed.

(** A stale descriptor with a chain of sensible size, in a consistent
    registry with enough memory, is initialised. *)
Lemma initialize_ok fuel st cls cd l :
  registry_ok st →
  descs st !! cls = Some cd →
  cls_initialized cd ≠ prte_class_init_epoch st →
  ancestors fuel (descs st) (Some cls) = Some l →
  2 * Z.of_nat (length l) + 2 ≤ INT_MAX →
  max_classes st + increment ≤ INT_MAX →
  mem_needed st l ≤ mem_avail st →
  prte_class_initialize fuel st cls = Done (initialized_state st cls cd l).
Proof.
  intros Hreg Hcd Hstale Hanc Hsize Hmax Hmem.
  pose proof (length_ctors_le (descs st) l).
  pose proof (length_dtors_le (descs st) l).
  apply initialize_stale; try done; lia.
Qed.

(** *** What the registry lists *)

Lemma registry_ok_registered st :
  registry_ok st →
  NoDup (registered st) ∧ Forall (λ b, is_Some (heap st !! b)) (registered st).
Proof.
  intros [_ Hreg]. destruct (classes st) as [arr|] eqn:Hcls.
  - destruct Hreg as (_ & _ & _ & _ & bs & Htake & Hnd & Hlive).
    by rewrite (registered_spec st arr bs) by (done || by rewrite Hcls).
  - unfold registered. rewrite Hcls. simpl. rewrite take_nil. simpl.
    split; constructor.
Qed.

Lemma registered_initialized st cls cd l :
  registry_ok st →
  registered (initialized_state st cls cd l)
  = registered st ++ [fresh (dom (heap st))].
Proof.
  intros [_ Hreg]. unfold registered.
  cbn [classes num_classes initialized_state].
  set (b := fresh (dom (heap st))).
  set (arr := default [] (classes st)).
  set (ext := if max_classes st <=? num_classes st
              then replicate (Z.to_nat increment) (Some NULL) else []).
  cbn [default from_option id].
  assert (Hn : (Z.to_nat (num_classes st) ≤ length arr)%nat ∧ 0 ≤ num_classes st
               ∧ (Z.to_nat (num_classes st) < length (arr ++ ext))%nat).
  { unfold arr, ext. rewrite length_app.
    destruct (classes st) as [a|]; simpl.
    - destruct Hreg as (? & ? & _).
      destruct (max_classes st <=? num_classes st) eqn:E;
        [rewrite ?length_replicate; unfold increment
        |apply Z.leb_gt in E]; simpl; lia.
    - destruct Hreg as [-> ->]. simpl. lia. }
  destruct Hn as (Hle & Hpos & Hlt).
  replace (Z.to_nat (num_classes st + 1)) with (S (Z.to_nat (num_classes st))) by lia.
  rewrite (take_S_r _ _ (Some (Ptr b 0))) by (by apply list_lookup_insert_eq).
  rewrite take_insert_ge, take_app_le, omap_app by lia. done.
Qed.

Lemma foldl_delete_lookup (bs : list positive) :
  ∀ (h : gmap positive block) b,
    foldl (λ h b, delete b h) h bs !! b
    = if decide (b ∈ bs) then None else h !! b.
Proof.
  induction bs as [|b' bs IH]; intros h b; simpl.
  - destruct (decide (b ∈ [])) as [Hin|_]; [|done]. by apply elem_of_nil in Hin.
  - rewrite IH. destruct (decide (b ∈ bs)) as [Hin|Hnin].
    + rewrite decide_True; [done|by right].
    + destruct (decide (b = b')) as [->|Hne].
      * rewrite lookup_delete_eq, decide_True; [done|by left].
      * rewrite lookup_delete_ne by done. rewrite decide_False; [done|].
        by intros [->|?]%elem_of_cons.
Qed.

(** *** Memory comes back at finalisation *)

Lemma freed_slots_nonneg h bs : 0 ≤ freed_slots h bs.
Proof.
  induction bs as [|b bs IH]; [done|].
  change (freed_slots h (b :: bs)) with (block_size h b + freed_slots h bs).
  unfold block_size. lia.
Qed.

Lemma freed_slots_app h bs1 bs2 :
  freed_slots h (bs1 ++ bs2) = freed_slots h bs1 + freed_slots h bs2.
Proof.
  induction bs1 as [|b bs1 IH]; [done|].
  change (freed_slots h ((b :: bs1) ++ bs2))
    with (block_size h b + freed_slots h (bs1 ++ bs2)).
  change (freed_slots h (b :: bs1)) with (block_size h b + freed_slots h bs1).
  rewrite IH. lia.
Qed.

Lemma freed_slots_insert h b blk bs :
  b ∉ bs → freed_slots (<[b := blk]> h) bs = freed_slots h bs.
Proof.
  induction bs as [|b' bs IH]; [done|]. intros Hb.
  apply not_elem_of_cons in Hb as [Hne Hb].
  change (freed_slots ?h (b' :: bs)) with (block_size h b' + freed_slots h bs).
  rewrite IH by done. unfold block_size. by rewrite lookup_insert_ne.
Qed.

Lemma length_default_classes st :
  registry_ok st →
  Z.of_nat (length (default [] (classes st))) = max_classes st.
Proof.
  intros [_ Hreg]. destruct (classes st) as [arr|]; simpl.
  - by destruct Hreg as (_ & ? & _).
  - by destruct Hreg as [_ ->].
Qed.

Lemma max_classes_granularity st :
  registry_ok st → num_classes st < max_classes st → increment ≤ max_classes st.
Proof.
  intros [_ Hreg] Hlt. destruct (classes st) as [arr|].
  - destruct Hreg as (Hnum & _ & _ & Hmod & _). unfold increment in *.
    pose proof (Z.div_mod (max_classes st) 10). lia.
  - destruct Hreg as [? ?]. lia.
Qed.

Lemma mem_total_initialized st cls cd l :
  registry_ok st →
  (max_classes st ≤ num_classes st → max_classes st + increment ≤ INT_MAX) →
  mem_total (initialized_state st cls cd l) = mem_total st.
Proof.
  intros Hreg Hmax. unfold mem_total.
  rewrite (length_default_classes _ (registry_ok_initialized st cls cd l Hreg Hmax)).
  rewrite (length_default_classes st Hreg).
  rewrite registered_initialized, freed_slots_app by done.
  destruct (registry_ok_registered st Hreg) as [_ Hlive].
  assert (Hfresh : heap st !! fresh (dom (heap st)) = None)
    by apply not_elem_of_dom, is_fresh.
  cbn [heap mem_avail max_classes initialized_state].
  rewrite freed_slots_insert.
  - unfold freed_slots at 2, block_size. cbn [foldr].
    rewrite lookup_insert_eq. cbn [default from_option id].
    rewrite length_chain_block. lia.
  - intros Hin. rewrite Forall_forall in Hlive. apply Hlive in Hin.
    rewrite Hfresh in Hin. by destruct Hin.
Qed.

Lemma mem_total_enough st l :
  registry_ok st →
  mem_needed st l ≤ mem_avail st →
  Z.of_nat (length (ctors (descs st) l)) + Z.of_nat (length (dtors (descs st) l))
  + 2 + increment ≤ mem_total st.
Proof.
  intros Hreg Hmem. unfold mem_total, mem_needed in *.
  rewrite (length_default_classes st Hreg).
  pose proof (freed_slots_nonneg (heap st) (registered st)).
  pose proof (max_classes_granularity st Hreg) as Hgran.
  assert (Hpos : 0 ≤ max_classes st).
  { destruct Hreg as [_ Hreg].
    destruct (classes st); [destruct Hreg as (? & _)|destruct Hreg]; lia. }
  destruct (max_classes st <=? num_classes st) eqn:E; unfold increment in *.
  - lia.
  - apply Z.leb_gt in E. specialize (Hgran E). lia.
Qed.

(** *** What an initialisation leaves alone *)

Lemma initialize_frame fuel st cls st' :
  registry_ok st →
  prte_class_initialize fuel st cls = Done st' →
  registry_ok st' ∧
  prte_class_init_epoch st' = prte_class_init_epoch st ∧
  mem_total st' = mem_total st ∧
  heap st ⊆ heap st' ∧
  (∀ b, b ∈ registered st → b ∈ registered st') ∧
  (∀ f c, ancestors f (descs st') c = ancestors f (descs st) c) ∧
  (∀ l, ctors (descs st') l = ctors (descs st) l) ∧
  (∀ l, dtors (descs st') l = dtors (descs st) l) ∧
  (∀ a cd, descs st !! a = Some cd →
           cls_initialized cd = prte_class_init_epoch st →
           descs st' !! a = Some cd).
Proof.
  intros Hreg Hinit.
  apply (initialize_inv _ _ _ _ Hreg) in Hinit
    as (cd & Hcd & [[_ ->] | (Hstale & l & _ & _ & _ & Hmax & _ & ->)]);
    [done|].
  split; [by apply registry_ok_initialized|]. split; [done|].
  split; [by apply mem_total_initialized|].
  split; [apply insert_subseteq, not_elem_of_dom, is_fresh|].
  split.
  { intros b Hb. rewrite registered_initialized by done.
    apply elem_of_app. by left. }
  split; [intros f c; by apply (ancestors_insert _ _ _ cd)|].
  split; [intros l'; by apply (ctors_insert _ _ cd)|].
  split; [intros l'; by apply (dtors_insert _ _ cd)|].
  intros a cd' Ha Hcur. cbn [descs initialized_state].
  rewrite lookup_insert_ne; [done|]. intros ->. congruence.
Qed.

Lemma initialize_calls_frame :
  ∀ cs st st',
    Forall is_initialize cs →
    registry_ok st →
    run cs st = Done st' →
    registry_ok st' ∧
    prte_class_init_epoch st' = prte_class_init_epoch st ∧
    mem_total st' = mem_total st ∧
    heap st ⊆ heap st' ∧
    (∀ b, b ∈ registered st → b ∈ registered st') ∧
    (∀ f c, ancestors f (descs st') c = ancestors f (descs st) c) ∧
    (∀ l, ctors (descs st') l = ctors (descs st) l) ∧
    (∀ l, dtors (descs st') l = dtors (descs st) l) ∧
    (∀ a cd, descs st !! a = Some cd →
             cls_initialized cd = prte_class_init_epoch st →
             descs st' !! a = Some cd).
Proof.
  induction cs as [|c cs IH]; intros st st' Hcs Hreg Hrun.
  - assert (st' = st) as -> by (cbn in Hrun; congruence).
    do 3 (split; [done|]). by repeat split.
  - apply Forall_cons in Hcs as [Hc Hcs]. cbn [run] in Hrun.
    apply bind_inv in Hrun as (st1 & Hcall & Hrun).
    destruct c as [fuel cls|]; [|done]. cbn [do_call] in Hcall.
    destruct (initialize_frame _ _ _ _ Hreg Hcall)
      as (Hreg1 & He1 & Hm1 & Hh1 & Hr1 & Ha1 & Hc1 & Hd1 & Hk1).
    destruct (IH st1 st' Hcs Hreg1 Hrun)
      as (Hreg2 & He2 & Hm2 & Hh2 & Hr2 & Ha2 & Hc2 & Hd2 & Hk2).
    split; [done|]. split; [congruence|]. split; [congruence|].
    split; [by transitivity (heap st1)|].
    split; [intros b Hb; by apply Hr2, Hr1|].
    split; [intros f c; by rewrite Ha2|].
    split; [intros l; by rewrite Hc2|].
    split; [intros l; by rewrite Hd2|].
    intros a cd Ha Hcur. apply Hk2; [by apply Hk1|]. by rewrite He1.
Qed.

(** After the finalisation a descriptor that was current is stale, and the
    memory the finalisation gave back is there to initialise it again. *)
Lemma reinitialize_ok fuel st cls cd l :
  registry_ok st →
  descs st !! cls = Some cd →
  cls_initialized cd = prte_class_init_epoch st →
  ancestors fuel (descs st) (Some cls) = Some l →
  Z.of_nat (length l) ≤ INT_MAX →
  Z.of_nat (length (ctors (descs st) l)) + Z.of_nat (length (dtors (descs st) l)) + 2
    ≤ INT_MAX →
  Z.of_nat (length (ctors (descs st) l)) + Z.of_nat (length (dtors (descs st) l)) + 2
    + increment ≤ mem_total st →
  cls_initialized cd ≠ prte_class_init_epoch (finalized_state st) ∧
  prte_class_initialize fuel (finalized_state st) cls
  = Done (initialized_state (finalized_state st) cls cd l).
Proof.
  intros Hreg Hcd Hcur Hanc Hsize Hsize2 Hmem.
  assert (Hstale : cls_initialized cd ≠ prte_class_init_epoch (finalized_state st)).
  { cbn. rewrite Hcur. intros E. symmetry in E. by apply next_epoch_neq in E. }
  split; [done|].
  apply initialize_stale; try done.
  by apply registry_ok_finalized.
Qed.

(** *** Where the end markers are *)







(** *** Finalisation has no failure path *)

Lemma free_loop_no_exit arr n :
  ∀ i s code,
    for_loop n i (free_body arr) s ≠ Exit code ∧
    for_loop n i (free_body arr) s ≠ OutOfFuel.
Proof.
  induction n as [|n IH]; intros i [h avail] code; [done|].
  cbn [for_loop free_body]. unfold array_get.
  destruct (0 <=? i); [|done].
  destruct (arr !! Z.to_nat i) as [[p|]|]; [|done|done].
  cbn [mbind outcome_bind].
  destruct (decide (p = NULL)) as [|_]; cbn [mbind outcome_bind]; [apply IH|].
  unfold free. destruct p as [|b off]; cbn [mbind outcome_bind]; [apply IH|].
  destruct (h !! b); [|done].
  destruct (off =? 0); cbn [mbind outcome_bind]; [apply IH|done].
Qed.


(** * The claims *)

(** C1.  A stale descriptor whose parent chain [l] defines the
    constructors [ctors l] and the destructors [dtors l] is initialised,
    and afterwards its construct chain reads: the constructors from the
    root class down to this class, then the end marker; its destruct chain
    reads: the destructors from this class up to the root class, then the
    end marker.  The chains hold exactly [length (ctors l)] and
    [length (dtors l)] functions, and they read the same after any further
    initialisations in the epoch. *)
Theorem chains_ordered_and_terminated fuel st cls cd l :
  registry_ok st →
  descs st !! cls = Some cd →
  cls_initialized cd ≠ prte_class_init_epoch st →
  ancestors fuel (descs st) (Some cls) = Some l →
  2 * Z.of_nat (length l) + 2 ≤ INT_MAX →
  max_classes st + increment ≤ INT_MAX →
  mem_needed st l ≤ mem_avail st →
  ∃ st' cd',
    prte_class_initialize fuel st cls = Done st' ∧
    descs st' !! cls = Some cd' ∧
    load_array (S (length (ctors (descs st) l))) (heap st') (cls_construct_array cd')
    = Done ((Some <$> reverse (ctors (descs st) l)) ++ [None]) ∧
    load_array (S (length (dtors (descs st) l))) (heap st') (cls_destruct_array cd')
    = Done ((Some <$> dtors (descs st) l) ++ [None]) ∧
    ∀ cs st'',
      Forall is_initialize cs →
      run cs st' = Done st'' →
      descs st'' !! cls = Some cd' ∧
      load_array (S (length (ctors (descs st) l))) (heap st'')
        (cls_construct_array cd')
      = Done ((Some <$> reverse (ctors (descs st) l)) ++ [None]) ∧
      load_array (S (length (dtors (descs st) l))) (heap st'')
        (cls_destruct_array cd')
      = Done ((Some <$> dtors (descs st) l) ++ [None]).
Proof.
  intros Hreg Hcd Hstale Hanc Hsize Hmax Hmem.
  assert (Hblk : heap (initialized_state st cls cd l) !! fresh (dom (heap st))
                 = Some (chain_block (ctors (descs st) l) (dtors (descs st) l)))
    by apply lookup_insert_eq.
  eexists _, _. split; [by apply (initialize_ok fuel st cls cd l)|].
  split; [apply lookup_insert_eq|].
  split; [exact (load_construct_chain _ _ _ _ Hblk)|].
  split; [exact (load_destruct_chain _ _ _ _ Hblk)|].
  intros cs st'' Hcs Hrun.
  destruct (initialize_calls_frame cs _ st'' Hcs
              (registry_ok_initialized st cls cd l Hreg (λ _, Hmax)) Hrun)
    as (_ & _ & _ & Hsub & _ & _ & _ & _ & Hkeep).
  pose proof (lookup_weaken _ _ _ _ Hblk Hsub) as Hblk'.
  split; [apply Hkeep; [apply lookup_insert_eq|done]|].
  split; [exact (load_construct_chain _ _ _ _ Hblk')
         |exact (load_destruct_chain _ _ _ _ Hblk')].
Qed.

(** The hierarchy [A <- B <- C] with constructors on [A] and [C] and
    destructors on [B] and [C]: the chains of [C]. *)
Lemma chains_of_three_levels :
  ∃ st' cd',
    prte_class_initialize 3 Demo.start Demo.C = Done st' ∧
    descs st' !! Demo.C = Some cd' ∧
    load_array 3 (heap st') (cls_construct_array cd')
    = Done [Some Demo.A_ctor; Some Demo.C_ctor; None] ∧
    load_array 3 (heap st') (cls_destruct_array cd')
    = Done [Some Demo.C_dtor; Some Demo.B_dtor; None].
Proof.
  destruct (chains_ordered_and_terminated 3 Demo.start Demo.C Demo.C_decl Demo.chain)
    as (st' & cd' & Hinit & Hcd' & Hc & Hd & _).
  - split; [simpl; unfold INT_MAX; lia|simpl; split; reflexivity].
  - reflexivity.
  - discriminate.
  - reflexivity.
  - vm_compute. discriminate.
  - vm_compute. discriminate.
  - vm_compute. discriminate.
  - exists st', cd'. split; [exact Hinit|]. split; [exact Hcd'|].
    split; [exact Hc|exact Hd].
Defined.

(** C2.  Once a call on a descriptor has returned, and whatever further
    initialisations have followed in the same epoch, a second call on the
    descriptor returns on the fast path: its stamp is the epoch, so the call
    returns the state unchanged whatever walk it is allowed (no walk at all
    included): no allocation, no write to the descriptor or to the
    registry.  When the descriptor was stale, the first call allocated one
    block and registered it once. *)
Theorem second_call_is_fast_path fuel st cls cs st' :
  registry_ok st →
  Forall is_initialize cs →
  run (Initialize fuel cls :: cs) st = Done st' →
  ∃ st0 cd',
    prte_class_initialize fuel st cls = Done st0 ∧
    run cs st0 = Done st' ∧
    prte_class_init_epoch st' = prte_class_init_epoch st ∧
    descs st' !! cls = Some cd' ∧
    cls_initialized cd' = prte_class_init_epoch st' ∧
    (∀ fuel', prte_class_initialize fuel' st' cls = Done st') ∧
    (∀ cd, descs st !! cls = Some cd →
           cls_initialized cd ≠ prte_class_init_epoch st →
           num_classes st0 = num_classes st + 1 ∧
           size (heap st0) = S (size (heap st))).
Proof.
  intros Hreg Hcs Hrun. cbn [run do_call] in Hrun.
  apply bind_inv in Hrun as (st0 & Hinit & Hrun).
  assert (Hcur : ∃ cd0, descs st0 !! cls = Some cd0 ∧
                        cls_initialized cd0 = prte_class_init_epoch st0 ∧
                        (∀ cd, descs st !! cls = Some cd →
                               cls_initialized cd ≠ prte_class_init_epoch st →
                               num_classes st0 = num_classes st + 1 ∧
                               size (heap st0) = S (size (heap st)))).
  { pose proof Hinit as Hinv.
    apply (initialize_inv _ _ _ _ Hreg) in Hinv
      as (cd & Hcd & [[He ->] | (Hstale & l & _ & _ & _ & _ & _ & ->)]).
    - exists cd. split; [done|]. split; [done|]. intros cd0 Hcd0 Hst. congruence.
    - eexists. split; [apply lookup_insert_eq|]. split; [done|].
      intros _ _ _. split; [done|].
      cbn [heap initialized_state]. apply map_size_insert_None.
      apply not_elem_of_dom, is_fresh. }
  destruct Hcur as (cd0 & Hcd0 & He0 & Honce).
  destruct (initialize_frame _ _ _ _ Hreg Hinit) as (Hreg0 & Hep0 & _).
  destruct (initialize_calls_frame cs st0 st' Hcs Hreg0 Hrun)
    as (_ & Hep & _ & _ & _ & _ & _ & _ & Hkeep).
  exists st0, cd0. split; [done|]. split; [done|]. split; [congruence|].
  split; [by apply Hkeep|]. split; [congruence|]. split; [|done].
  intros fuel'. apply (initialize_current fuel' st' cls cd0); [by apply Hkeep|].
  congruence.
Qed.

(** [C] and then [B] are initialised; a further call on [C] changes
    nothing, with or without steps for the walk. *)
Lemma second_call_on_three_levels :
  ∃ st',
    run [Initialize 3 Demo.C; Initialize 2 Demo.B] Demo.start = Done st' ∧
    prte_class_initialize 0 st' Demo.C = Done st' ∧
    prte_class_initialize 3 st' Demo.C = Done st'.
Proof.
  assert (Hrun : ∃ st', run [Initialize 3 Demo.C; Initialize 2 Demo.B] Demo.start
                        = Done st') by (vm_compute; eexists; reflexivity).
  destruct Hrun as [st' Hrun]. exists st'. split; [exact Hrun|].
  destruct (second_call_is_fast_path 3 Demo.start Demo.C [Initialize 2 Demo.B] st')
    as (st0 & cd' & _ & _ & _ & _ & _ & Hfast & _).
  - split; [simpl; unfold INT_MAX; lia|simpl; split; reflexivity].
  - repeat constructor.
  - exact Hrun.
  - split; apply Hfast.
Defined.

(** C3.  A stale descriptor is initialised, and other descriptors after
    it; after the finalisation its stamp differs from the new epoch; the
    next initialisation of it succeeds and computes the same depth and the
    same chains, in a block with the same contents as the first one. *)
Theorem finalize_then_reinitialize fuel st cls cd cs st1 :
  registry_ok st →
  descs st !! cls = Some cd →
  cls_initialized cd ≠ prte_class_init_epoch st →
  Forall is_initialize cs →
  run (Initialize fuel cls :: cs) st = Done st1 →
  ∃ l st2 st3 cd1 cd3 b1 b3 blk,
    ancestors fuel (descs st) (Some cls) = Some l ∧
    descs st1 !! cls = Some cd1 ∧
    cls_initialized cd1 = prte_class_init_epoch st1 ∧
    prte_class_finalize st1 = Done (PRTE_SUCCESS, st2) ∧
    descs st2 !! cls = Some cd1 ∧
    cls_initialized cd1 ≠ prte_class_init_epoch st2 ∧
    prte_class_initialize fuel st2 cls = Done st3 ∧
    descs st3 !! cls = Some cd3 ∧
    cls_initialized cd3 = prte_class_init_epoch st3 ∧
    cls_depth cd3 = cls_depth cd1 ∧
    cls_depth cd3 = Z.of_nat (length l) ∧
    cls_construct_array cd1 = Ptr b1 0 ∧
    cls_construct_array cd3 = Ptr b3 0 ∧
    heap st1 !! b1 = Some blk ∧
    heap st3 !! b3 = Some blk ∧
    load_array (S (length (ctors (descs st) l))) (heap st3) (cls_construct_array cd3)
    = load_array (S (length (ctors (descs st) l))) (heap st1)
        (cls_construct_array cd1) ∧
    load_array (S (length (ctors (descs st) l))) (heap st3) (cls_construct_array cd3)
    = Done ((Some <$> reverse (ctors (descs st) l)) ++ [None]) ∧
    load_array (S (length (dtors (descs st) l))) (heap st3) (cls_destruct_array cd3)
    = load_array (S (length (dtors (descs st) l))) (heap st1)
        (cls_destruct_array cd1) ∧
    load_array (S (length (dtors (descs st) l))) (heap st3) (cls_destruct_array cd3)
    = Done ((Some <$> dtors (descs st) l) ++ [None]).
Proof.
  intros Hreg Hcd Hstale Hcs Hrun. cbn [run do_call] in Hrun.
  apply bind_inv in Hrun as (st0 & Hinit & Hrun).
  destruct (initialize_frame _ _ _ _ Hreg Hinit)
    as (Hreg0 & Hep0 & Hm0 & _ & _ & Ha0 & Hc0 & Hd0 & _).
  apply (initialize_inv _ _ _ _ Hreg) in Hinit
    as (cd' & Hcd' & [[He _] | (_ & l & Hanc & Hsize & Hsize2 & _ & Hmem & ->)]);
    [congruence|].
  assert (cd' = cd) as -> by congruence.
  set (st0 := initialized_state st cls cd l) in *.
  set (cs0 := ctors (descs st) l) in *. set (ds0 := dtors (descs st) l) in *.
  set (b1 := fresh (dom (heap st))).
  set (cd1 := initialized_class cd (prte_class_init_epoch st) (Z.of_nat (length l))
                b1 (Z.of_nat (length cs0))).
  assert (Hcd1 : descs st0 !! cls = Some cd1) by apply lookup_insert_eq.
  assert (Hblk1 : heap st0 !! b1 = Some (chain_block cs0 ds0))
    by apply lookup_insert_eq.
  destruct (initialize_calls_frame cs st0 st1 Hcs Hreg0 Hrun)
    as (Hreg1 & Hep1 & Hm1 & Hh1 & _ & Ha1 & Hc1 & Hd1 & Hkeep).
  assert (Hcd1' : descs st1 !! cls = Some cd1) by (by apply Hkeep).
  assert (Hcur1 : cls_initialized cd1 = prte_class_init_epoch st1)
    by (by rewrite Hep1).
  assert (Hcs1 : ctors (descs st1) l = cs0) by (by rewrite Hc1, Hc0).
  assert (Hds1 : dtors (descs st1) l = ds0) by (by rewrite Hd1, Hd0).
  destruct (reinitialize_ok fuel st1 cls cd1 l) as [Hstale2 Hinit2]; try done.
  { by rewrite Ha1, Ha0. }
  { by rewrite Hcs1, Hds1. }
  { rewrite Hcs1, Hds1, Hm1, Hm0. by apply mem_total_enough. }
  set (st2 := finalized_state st1) in *.
  set (b3 := fresh (dom (heap st2))).
  assert (Hblk1' : heap st1 !! b1 = Some (chain_block cs0 ds0))
    by (by apply (lookup_weaken (heap st0))).
  assert (Hblk3 : heap (initialized_state st2 cls cd1 l) !! b3
                  = Some (chain_block cs0 ds0)).
  { cbn [heap initialized_state]. fold b3.
    change (descs st2) with (descs st1). rewrite Hcs1, Hds1.
    apply lookup_insert_eq. }
  exists l, st2, (initialized_state st2 cls cd1 l), cd1.
  eexists _, b1, b3, (chain_block cs0 ds0).
  split; [done|]. split; [done|]. split; [done|].
  split; [by apply finalize_spec|]. split; [done|]. split; [done|].
  split; [done|]. split; [apply lookup_insert_eq|]. split; [done|].
  split; [done|]. split; [done|]. split; [done|]. split; [done|].
  split; [done|]. split; [done|].
  cbn [cls_construct_array cls_destruct_array initialized_class set_initialized
       set_destruct_array set_construct_array set_depth cd1].
  fold b3 cs0 ds0. change (descs st2) with (descs st1). rewrite Hcs1.
  rewrite (load_construct_chain _ _ _ _ Hblk1'), (load_construct_chain _ _ _ _ Hblk3).
  rewrite (load_destruct_chain _ _ _ _ Hblk1'), (load_destruct_chain _ _ _ _ Hblk3).
  done.
Qed.

(** [C] and [B] are initialised, the registry is finalised, and [C] is
    initialised again with the same depth and chains. *)
Lemma reinitialize_three_levels :
  ∃ st1 st2 st3 cd1 cd3,
    run [Initialize 3 Demo.C; Initialize 2 Demo.B] Demo.start = Done st1 ∧
    descs st1 !! Demo.C = Some cd1 ∧
    prte_class_finalize st1 = Done (PRTE_SUCCESS, st2) ∧
    cls_initialized cd1 ≠ prte_class_init_epoch st2 ∧
    prte_class_initialize 3 st2 Demo.C = Done st3 ∧
    descs st3 !! Demo.C = Some cd3 ∧
    cls_depth cd3 = cls_depth cd1 ∧
    load_array 3 (heap st3) (cls_construct_array cd3)
    = Done [Some Demo.A_ctor; Some Demo.C_ctor; None] ∧
    load_array 3 (heap st3) (cls_destruct_array cd3)
    = Done [Some Demo.C_dtor; Some Demo.B_dtor; None].
Proof.
  assert (Hrun : ∃ st1, run [Initialize 3 Demo.C; Initialize 2 Demo.B] Demo.start
                        = Done st1) by (vm_compute; eexists; reflexivity).
  destruct Hrun as [st1 Hrun].
  destruct (finalize_then_reinitialize 3 Demo.start Demo.C Demo.C_decl
              [Initialize 2 Demo.B] st1)
    as (l & st2 & st3 & cd1 & cd3 & b1 & b3 & blk & Hl & Hcd1 & _ & Hfin & _ & Hst
        & Hinit & Hcd3 & _ & Hdep & _ & _ & _ & _ & _ & _ & Hc & _ & Hd).
  - split; [simpl; unfold INT_MAX; lia|simpl; split; reflexivity].
  - reflexivity.
  - discriminate.
  - repeat constructor.
  - exact Hrun.
  - assert (l = Demo.chain) as ->
      by (vm_compute in Hl; injection Hl as <-; reflexivity).
    exists st1, st2, st3, cd1, cd3.
    split; [exact Hrun|]. split; [exact Hcd1|]. split; [exact Hfin|].
    split; [exact Hst|]. split; [exact Hinit|]. split; [exact Hcd3|].
    split; [exact Hdep|]. split; [exact Hc|exact Hd].
Defined.

(** C4, as the code has it.  The root descriptor carries stamp 1, the
    value the epoch starts with.  As long as no finalisation has been
    called, whatever descriptors have been initialised, the initialisation
    of the root is the fast path: the state is unchanged and the root keeps
    its null chain pointers.  The stamp is an ordinary epoch value: after
    the finalisation the root is stale, and its initialisation takes the
    slow path, sets depth 1 and allocates a block of two end markers. *)
Theorem root_is_current_until_finalize d avail root size cs st :
  d !! root = Some (prte_object_t_class size) →
  Forall is_initialize cs →
  run cs (initial_state d avail) = Done st →
  (∀ fuel, prte_class_initialize fuel st root = Done st) ∧
  descs st !! root = Some (prte_object_t_class size) ∧
  ∃ st1,
    prte_class_finalize st = Done (PRTE_SUCCESS, st1) ∧
    descs st1 !! root = Some (prte_object_t_class size) ∧
    prte_class_init_epoch st1 = 2 ∧
    (2 + increment ≤ mem_avail st1 →
     ∀ fuel, ∃ st2 cd2 b,
       prte_class_initialize (S fuel) st1 root = Done st2 ∧
       descs st2 !! root = Some cd2 ∧
       cls_initialized cd2 = 2 ∧
       cls_depth cd2 = 1 ∧
       cls_construct_array cd2 = Ptr b 0 ∧
       cls_destruct_array cd2 = Ptr b 1 ∧
       heap st1 !! b = None ∧
       heap st2 !! b = Some [Some None; Some None] ∧
       num_classes st2 = 1).
Proof.
  intros Hroot Hcs Hrun.
  destruct (initialize_calls_frame cs _ st Hcs (registry_ok_initial d avail) Hrun)
    as (Hreg & Hep & _ & _ & _ & _ & _ & _ & Hkeep).
  assert (Hroot' : descs st !! root = Some (prte_object_t_class size))
    by (by apply Hkeep).
  cbn in Hep.
  split; [intros fuel; by apply (initialize_current fuel st root _ Hroot')|].
  split; [done|].
  exists (finalized_state st).
  split; [by apply finalize_spec|]. split; [done|].
  assert (Hep1 : prte_class_init_epoch (finalized_state st) = 2)
    by (cbn; by rewrite Hep).
  split; [done|].
  intros Hmem fuel.
  assert (Hanc : ancestors (S fuel) (descs (finalized_state st)) (Some root)
                 = Some [root]).
  { cbn [ancestors descs finalized_state]. rewrite Hroot'. simpl.
    by destruct fuel. }
  assert (Hcs0 : ctors (descs (finalized_state st)) [root] = [])
    by (rewrite ctors_cons; cbn [descs finalized_state]; by rewrite Hroot').
  assert (Hds0 : dtors (descs (finalized_state st)) [root] = [])
    by (rewrite dtors_cons; cbn [descs finalized_state]; by rewrite Hroot').
  eexists _, _, (fresh (dom (heap (finalized_state st)))).
  split.
  { apply (initialize_ok (S fuel) _ root (prte_object_t_class size) [root]);
      try done.
    - by apply registry_ok_finalized.
    - by rewrite Hep1.
    - unfold mem_needed. by rewrite Hcs0, Hds0. }
  split; [apply lookup_insert_eq|].
  split; [done|]. split; [done|]. split; [done|].
  split; [by rewrite Hcs0|].
  split; [apply not_elem_of_dom, is_fresh|].
  split; [|done].
  cbn [heap initialized_state]. rewrite Hcs0, Hds0. apply lookup_insert_eq.
Qed.

(** The lone root class: a fast path at the start, a computation after the
    finalisation. *)
Lemma root_at_start_and_after_finalize :
  prte_class_initialize 0 Demo.root_start Demo.root = Done Demo.root_start ∧
  ∃ st1 st2,
    prte_class_finalize Demo.root_start = Done (PRTE_SUCCESS, st1) ∧
    prte_class_initialize 1 st1 Demo.root = Done st2 ∧
    num_classes st2 = 1.
Proof.
  destruct (root_is_current_until_finalize
              {[Demo.root := prte_object_t_class 16]} 100 Demo.root 16 []
              Demo.root_start)
    as (Hfast & _ & st1 & Hfin & _ & _ & Hslow).
  - reflexivity.
  - constructor.
  - reflexivity.
  - split; [apply Hfast|].
    assert (E : Done (PRTE_SUCCESS, st1)
                = Done (PRTE_SUCCESS, finalized_state Demo.root_start))
      by (rewrite <- Hfin; vm_compute; reflexivity).
    injection E as ->.
    destruct (Hslow ltac:(vm_compute; discriminate) 0%nat)
      as (st2 & cd2 & b & Hinit & _ & _ & _ & _ & _ & _ & _ & Hnum).
    exists (finalized_state Demo.root_start), st2.
    split; [exact Hfin|]. split; [exact Hinit|exact Hnum].
Defined.

(** C4, as the claim has it, fails: after one finalisation the
    initialisation of the root is not a fast path; it allocates a block
    and registers it. *)
Lemma root_is_recomputed_after_finalize :
  ∃ st1 st2,
    run [Finalize] Demo.root_start = Done st1 ∧
    prte_class_initialize 1 st1 Demo.root = Done st2 ∧
    st2 ≠ st1 ∧
    heap st1 !! 1%positive = None ∧
    heap st2 !! 1%positive = Some [Some None; Some None] ∧
    num_classes st1 = 0 ∧
    num_classes st2 = 1.
Proof.
  eexists _, _.
  split; [vm_compute; reflexivity|].
  split; [vm_compute; reflexivity|].
  split; [intros E; apply (f_equal num_classes) in E; vm_compute in E; discriminate|].
  split; [vm_compute; reflexivity|].
  split; [vm_compute; reflexivity|].
  split; vm_compute; reflexivity.
Qed.

(** C5.  When the epoch counter holds [INT_MAX], the finalisation sets it
    to 1, not to 0; no reachable state has epoch 0; and every descriptor
    that is stale after the wrap is initialised by its next call: stamp 1,
    the depth of its chain, and both chains in order. *)
Theorem epoch_wraps_to_one st :
  registry_ok st →
  prte_class_init_epoch st = INT_MAX →
  ∃ st',
    prte_class_finalize st = Done (PRTE_SUCCESS, st') ∧
    prte_class_init_epoch st' = 1 ∧
    prte_class_init_epoch st' ≠ 0 ∧
    (∀ s, reachable s → prte_class_init_epoch s ≠ 0) ∧
    ∀ fuel cls cd l,
      descs st' !! cls = Some cd →
      cls_initialized cd ≠ prte_class_init_epoch st' →
      ancestors fuel (descs st') (Some cls) = Some l →
      2 * Z.of_nat (length l) + 2 ≤ INT_MAX →
      mem_needed st' l ≤ mem_avail st' →
      ∃ st'' cd'',
        prte_class_initialize fuel st' cls = Done st'' ∧
        descs st'' !! cls = Some cd'' ∧
        cls_initialized cd'' = 1 ∧
        prte_class_init_epoch st'' = 1 ∧
        cls_depth cd'' = Z.of_nat (length l) ∧
        load_array (S (length (ctors (descs st') l))) (heap st'')
          (cls_construct_array cd'')
        = Done ((Some <$> reverse (ctors (descs st') l)) ++ [None]) ∧
        load_array (S (length (dtors (descs st') l))) (heap st'')
          (cls_destruct_array cd'')
        = Done ((Some <$> dtors (descs st') l) ++ [None]).
Proof.
  intros Hreg Hmaxed.
  assert (Hone : prte_class_init_epoch (finalized_state st) = 1).
  { cbn. unfold next_epoch. by rewrite Hmaxed, Z.eqb_refl. }
  exists (finalized_state st).
  split; [by apply finalize_spec|]. split; [done|].
  split; [by rewrite Hone|].
  split.
  { intros s [Hep _]%reachable_registry_ok. lia. }
  intros fuel cls cd l Hcd Hstale Hanc Hsize Hmem.
  eexists _, _.
  split.
  { apply (initialize_ok fuel _ cls cd l); try done.
    by apply registry_ok_finalized. }
  split; [apply lookup_insert_eq|].
  split; [done|]. split; [done|]. split; [done|].
  split.
  - apply (load_construct_chain _ _ _ (dtors (descs (finalized_state st)) l)),
      lookup_insert_eq.
  - apply (load_destruct_chain _ _ (ctors (descs (finalized_state st)) l)),
      lookup_insert_eq.
Qed.

(** From the epoch [INT_MAX] the finalisation goes to epoch 1, where [C]
    is initialised as usual. *)
Lemma epoch_wraps_with_three_levels :
  ∃ st' st'' cd'',
    prte_class_finalize Demo.maxed = Done (PRTE_SUCCESS, st') ∧
    prte_class_init_epoch st' = 1 ∧
    prte_class_initialize 3 st' Demo.C = Done st'' ∧
    descs st'' !! Demo.C = Some cd'' ∧
    cls_initialized cd'' = 1 ∧
    cls_depth cd'' = 3 ∧
    load_array 3 (heap st'') (cls_construct_array cd'')
    = Done [Some Demo.A_ctor; Some Demo.C_ctor; None] ∧
    load_array 3 (heap st'') (cls_destruct_array cd'')
    = Done [Some Demo.C_dtor; Some Demo.B_dtor; None].
Proof.
  destruct (epoch_wraps_to_one Demo.maxed) as (st' & Hfin & Hone & _ & _ & Hinit).
  - split; [simpl; unfold INT_MAX; lia|simpl; split; reflexivity].
  - reflexivity.
  - assert (E : Done (PRTE_SUCCESS, st') = Done (PRTE_SUCCESS, finalized_state Demo.maxed))
      by (rewrite <- Hfin; vm_compute; reflexivity).
    injection E as ->.
    destruct (Hinit 3%nat Demo.C
                Demo.C_decl
                Demo.chain)
      as (st'' & cd'' & H1 & H2 & H3 & _ & H4 & H5 & H6).
    + reflexivity.
    + discriminate.
    + reflexivity.
    + vm_compute. discriminate.
    + vm_compute. discriminate.
    + exists (finalized_state Demo.maxed), st'', cd''.
      split; [exact Hfin|]. split; [exact Hone|]. split; [exact H1|].
      split; [exact H2|]. split; [exact H3|]. split; [exact H4|].
      split; [exact H5|exact H6].
Defined.

(** C6.  A call that finds the descriptor stale returns with its depth set
    to the number of classes on its chain, itself and the root included:
    one more than the length of its parent's chain, and 1 when it has no
    parent; further initialisations in the epoch leave the descriptor as
    it is.  A call that finds the stamp current returns the state it was
    given: the depth is the one the descriptor had. *)
Theorem depth_counts_the_chain fuel st cls cd l :
  registry_ok st →
  descs st !! cls = Some cd →
  ancestors fuel (descs st) (Some cls) = Some l →
  2 * Z.of_nat (length l) + 2 ≤ INT_MAX →
  max_classes st + increment ≤ INT_MAX →
  mem_needed st l ≤ mem_avail st →
  (cls_initialized cd ≠ prte_class_init_epoch st →
   ∃ st' cd',
     prte_class_initialize fuel st cls = Done st' ∧
     descs st' !! cls = Some cd' ∧
     cls_depth cd' = Z.of_nat (length l) ∧
     (∃ l', l = cls :: l' ∧
            ancestors (pred fuel) (descs st) (cls_parent cd) = Some l' ∧
            cls_depth cd' = 1 + Z.of_nat (length l')) ∧
     (cls_parent cd = None → cls_depth cd' = 1) ∧
     (∀ cs st'', Forall is_initialize cs → run cs st' = Done st'' →
                 descs st'' !! cls = Some cd')) ∧
  (cls_initialized cd = prte_class_init_epoch st →
   ∃ st' cd',
     prte_class_initialize fuel st cls = Done st' ∧
     descs st' !! cls = Some cd' ∧
     cls_depth cd' = cls_depth cd).
Proof.
  intros Hreg Hcd Hanc Hsize Hmax Hmem. split; [intros Hstale|intros Hcur].
  2: { exists st, cd. split; [by apply (initialize_current fuel st cls cd)|done]. }
  eexists _, _. split; [by apply (initialize_ok fuel st cls cd l)|].
  split; [apply lookup_insert_eq|].
  split; [done|].
  assert (Hkeep : ∀ cs st'', Forall is_initialize cs →
            run cs (initialized_state st cls cd l) = Done st'' →
            descs st'' !! cls
            = Some (initialized_class cd (prte_class_init_epoch st)
                      (Z.of_nat (length l)) (fresh (dom (heap st)))
                      (Z.of_nat (length (ctors (descs st) l))))).
  { intros cs st'' Hcs Hrun.
    destruct (initialize_calls_frame cs _ st'' Hcs
                (registry_ok_initialized st cls cd l Hreg (λ _, Hmax)) Hrun)
      as (_ & _ & _ & _ & _ & _ & _ & _ & Hkeep).
    apply Hkeep; [apply lookup_insert_eq|done]. }
  destruct fuel as [|fuel]; [done|]. cbn [ancestors] in Hanc.
  rewrite Hcd in Hanc. cbn [mbind option_bind] in Hanc.
  destruct (ancestors fuel (descs st) (cls_parent cd)) as [l'|] eqn:Hl'; [|done].
  injection Hanc as <-. split; [|split; [|exact Hkeep]].
  - exists l'. split; [done|]. split; [done|]. simpl. lia.
  - intros Hroot. rewrite Hroot in Hl'. destruct fuel; by injection Hl' as <-.
Qed.

(** [C] in [A <- B <- C] gets depth 3. *)
Lemma depth_of_three_levels :
  ∃ st' cd',
    prte_class_initialize 3 Demo.start Demo.C = Done st' ∧
    descs st' !! Demo.C = Some cd' ∧
    cls_depth cd' = 3.
Proof.
  destruct (depth_counts_the_chain 3 Demo.start Demo.C
              Demo.C_decl
              Demo.chain)
    as [Hstale _].
  - split; [simpl; unfold INT_MAX; lia|simpl; split; reflexivity].
  - reflexivity.
  - reflexivity.
  - vm_compute. discriminate.
  - vm_compute. discriminate.
  - vm_compute. discriminate.
  - destruct Hstale as (st' & cd' & Hinit & Hcd' & Hdepth & _); [discriminate|].
    exists st', cd'. split; [exact Hinit|]. split; [exact Hcd'|exact Hdepth].
Defined.

(** C6, as the claim has it, fails: on the root class at the start of the
    process the call returns, the class has no parent and its chain has one
    class, and its depth is 0 as declared, not 1. *)
Lemma root_keeps_depth_zero :
  ∃ st' cd',
    prte_class_initialize 1 Demo.root_start Demo.root = Done st' ∧
    descs st' !! Demo.root = Some cd' ∧
    cls_parent cd' = None ∧
    ancestors 1 (descs st') (Some Demo.root) = Some [Demo.root] ∧
    cls_depth cd' = 0 ∧
    cls_depth cd' ≠ 1.
Proof.
  exists Demo.root_start, (prte_object_t_class 16).
  split; [vm_compute; reflexivity|].
  split; [vm_compute; reflexivity|].
  split; [reflexivity|].
  split; [vm_compute; reflexivity|].
  split; [reflexivity|discriminate].
Qed.

(** C7.  The initialisation of a stale descriptor allocates one block, of
    [(c + 1) + (k + 1)] slots for [c] constructors and [k] destructors on
    the chain.  The construct chain starts at the base of the block, the
    destruct chain [c + 1] slots further.  The block is registered once: a
    second call in the same epoch allocates nothing, and the finalisation
    releases the block, and with it both chains. *)
Theorem one_block_holds_both_chains fuel st cls cd l :
  registry_ok st →
  descs st !! cls = Some cd →
  cls_initialized cd ≠ prte_class_init_epoch st →
  ancestors fuel (descs st) (Some cls) = Some l →
  2 * Z.of_nat (length l) + 2 ≤ INT_MAX →
  max_classes st + increment ≤ INT_MAX →
  mem_needed st l ≤ mem_avail st →
  let c := Z.of_nat (length (ctors (descs st) l)) in
  let k := Z.of_nat (length (dtors (descs st) l)) in
  ∃ st' cd' b blk,
    prte_class_initialize fuel st cls = Done st' ∧
    descs st' !! cls = Some cd' ∧
    heap st !! b = None ∧
    heap st' = <[b := blk]> (heap st) ∧
    Z.of_nat (length blk) = (c + 1) + (k + 1) ∧
    cls_construct_array cd' = Ptr b 0 ∧
    cls_destruct_array cd' = ptr_add (cls_construct_array cd') (c + 1) ∧
    registered st' = registered st ++ [b] ∧
    (∀ fuel', prte_class_initialize fuel' st' cls = Done st') ∧
    ∃ st'', prte_class_finalize st' = Done (PRTE_SUCCESS, st'') ∧
            heap st'' !! b = None.
Proof.
  intros Hreg Hcd Hstale Hanc Hsize Hmax Hmem c k.
  exists (initialized_state st cls cd l).
  eexists _, (fresh (dom (heap st))), _.
  split; [by apply (initialize_ok fuel st cls cd l)|].
  split; [apply lookup_insert_eq|].
  split; [apply not_elem_of_dom, is_fresh|].
  split; [done|].
  split; [rewrite length_chain_block; unfold c, k; lia|].
  split; [done|].
  split; [simpl; by rewrite Z.add_0_l|].
  split; [by apply registered_initialized|].
  split.
  - intros fuel'. eapply initialize_current; [apply lookup_insert_eq|done].
  - eexists. split.
    + apply finalize_spec, registry_ok_initialized; [done|by intros _].
    + cbn [heap finalized_state]. rewrite foldl_delete_lookup.
      rewrite decide_True; [done|].
      rewrite registered_initialized by done. apply elem_of_app. right. by left.
Qed.

(** [C] in [A <- B <- C]: one block of six slots, the destruct chain three
    slots after the construct chain. *)
Lemma one_block_for_three_levels :
  ∃ st' cd' b blk,
    prte_class_initialize 3 Demo.start Demo.C = Done st' ∧
    descs st' !! Demo.C = Some cd' ∧
    heap Demo.start !! b = None ∧
    heap st' = <[b := blk]> (heap Demo.start) ∧
    Z.of_nat (length blk) = (2 + 1) + (2 + 1) ∧
    cls_construct_array cd' = Ptr b 0 ∧
    cls_destruct_array cd' = ptr_add (cls_construct_array cd') (2 + 1) ∧
    registered st' = registered Demo.start ++ [b] ∧
    (∀ fuel', prte_class_initialize fuel' st' Demo.C = Done st') ∧
    ∃ st'', prte_class_finalize st' = Done (PRTE_SUCCESS, st'') ∧
            heap st'' !! b = None.
Proof.
  apply (one_block_holds_both_chains 3 Demo.start Demo.C
           Demo.C_decl
           Demo.chain).
  - split; [simpl; unfold INT_MAX; lia|simpl; split; reflexivity].
  - reflexivity.
  - discriminate.
  - reflexivity.
  - vm_compute. discriminate.
  - vm_compute. discriminate.
  - vm_compute. discriminate.
Defined.




(** C9.  In every consistent registry state the finalisation returns the
    success indicator and leaves the storage list empty, count and capacity
    zero, and the epoch advanced.  When the storage list is empty to begin
    with, nothing is freed: heap and available memory are as before and
    only the epoch has changed.  In no state at all does the finalisation
    end the process or return another status. *)
Theorem finalize_always_succeeds st :
  registry_ok st →
  (∃ st',
     prte_class_finalize st = Done (PRTE_SUCCESS, st') ∧
     classes st' = None ∧ num_classes st' = 0 ∧ max_classes st' = 0 ∧
     prte_class_init_epoch st' = next_epoch (prte_class_init_epoch st) ∧
     prte_class_init_epoch st' ≠ prte_class_init_epoch st ∧
     (classes st = None →
      st' = {| descs := descs st; heap := heap st; mem_avail := mem_avail st;
               prte_class_init_epoch := next_epoch (prte_class_init_epoch st);
               classes := None; num_classes := 0; max_classes := 0 |})) ∧
  (∀ s code, prte_class_finalize s ≠ Exit code) ∧
  (∀ s r s', prte_class_finalize s = Done (r, s') → r = PRTE_SUCCESS).
Proof.
  intros Hreg. split; [|split].
  - exists (finalized_state st). split; [by apply finalize_spec|].
    do 4 (split; [done|]). split; [apply next_epoch_neq|].
    intros Hnone. unfold finalized_state, registered. rewrite Hnone. simpl.
    rewrite take_nil. simpl. by rewrite !Z.add_0_r.
  - intros s code. unfold prte_class_finalize.
    destruct (classes s) as [arr|]; [|done].
    pose proof (free_loop_no_exit arr (Z.to_nat (num_classes s - 0)) 0
                  (heap s, mem_avail s) code) as [Hne _].
    destruct (for_loop _ _ _ _) as [[h avail]| | |]; try done.
    cbn [mbind outcome_bind]. congruence.
  - intros s r s'. unfold prte_class_finalize.
    destruct (classes s) as [arr|]; [|by intros [= <- _]].
    destruct (for_loop _ _ _ _) as [[h avail]| | |]; try done.
    by intros [= <- _].
Qed.

(** The finalisation of an empty registry only advances the epoch. *)
Lemma finalize_at_start :
  prte_class_finalize Demo.start
  = Done (PRTE_SUCCESS,
          {| descs := Demo.store; heap := ∅; mem_avail := 1000;
             prte_class_init_epoch := 2;
             classes := None; num_classes := 0; max_classes := 0 |}).
Proof.
  destruct (finalize_always_succeeds Demo.start) as [(st' & Hfin & _ & _ & _ & _ & _ & Hst') _].
  - split; [simpl; unfold INT_MAX; lia|simpl; split; reflexivity].
  - rewrite Hfin, (Hst' eq_refl). reflexivity.
Defined.

(** C10.  The finalisation writes no descriptor: in every consistent
    registry state it returns with the descriptor store as it was.  It
    frees exactly the registered blocks, so a descriptor whose construct
    array points into a registered block keeps that pointer, and the block
    it points to is gone. *)
Theorem finalize_writes_no_descriptor st :
  registry_ok st →
  ∃ st',
    prte_class_finalize st = Done (PRTE_SUCCESS, st') ∧
    descs st' = descs st ∧
    (∀ b, heap st' !! b
          = if decide (b ∈ registered st) then None else heap st !! b) ∧
    (∀ cls cd b off,
       descs st !! cls = Some cd →
       cls_construct_array cd = Ptr b off →
       b ∈ registered st →
       descs st' !! cls = Some cd ∧ heap st' !! b = None).
Proof.
  intros Hreg. exists (finalized_state st).
  split; [by apply finalize_spec|]. split; [done|].
  split; [intros b; apply foldl_delete_lookup|].
  intros cls cd b off Hcd _ Hb. split; [done|].
  cbn [heap finalized_state]. rewrite foldl_delete_lookup.
  by rewrite decide_True.
Qed.


(** After the initialisation of [C] and the finalisation, the descriptor
    of [C] is as the initialisation left it and its block is gone. *)
Lemma finalize_after_three_levels :
  ∃ st' cd,
    prte_class_finalize Demo.after_C = Done (PRTE_SUCCESS, st') ∧
    descs st' = descs Demo.after_C ∧
    descs st' !! Demo.C = Some cd ∧
    cls_initialized cd = 1 ∧
    cls_depth cd = 3 ∧
    cls_construct_array cd = Ptr 1 0 ∧
    cls_destruct_array cd = Ptr 1 3 ∧
    is_Some (heap Demo.after_C !! 1%positive) ∧
    heap st' !! 1%positive = None.
Proof.
  destruct (finalize_writes_no_descriptor Demo.after_C)
    as (st' & Hfin & Hdescs & _ & Hptr).
  - split; [simpl; unfold INT_MAX; lia|]. simpl.
    split; [unfold increment; lia|]. split; [reflexivity|].
    split; [unfold increment, INT_MAX; lia|].
    split; [reflexivity|]. exists [1%positive].
    split; [reflexivity|]. split; [apply NoDup_singleton|].
    apply Forall_singleton. eexists. vm_compute. reflexivity.
  - destruct (Hptr Demo.C (initialized_class Demo.C_decl 1 3 1 2) 1%positive 0)
      as [Hcd Hgone].
    + vm_compute. reflexivity.
    + reflexivity.
    + vm_compute. left.
    + exists st'. eexists. split; [exact Hfin|]. split; [exact Hdescs|].
      split; [exact Hcd|]. do 4 (split; [reflexivity|]).
      split; [eexists; vm_compute; reflexivity|exact Hgone].
Defined.

(** * Further properties of the code *)

(** ** When the allocator refuses *)

Lemma expand_array_oom st :
  registry_ok st →
  max_classes st + increment ≤ INT_MAX →
  mem_avail st < increment →
  expand_array st = Exit (-1).
Proof.
  intros [_ Hreg] Hmax Hmem. unfold expand_array, increment in *.
  assert (Hlen : Z.of_nat (length (default [] (classes st))) = max_classes st
                 ∧ 0 ≤ max_classes st).
  { destruct (classes st) as [arr|]; simpl; [|lia].
    destruct Hreg as (? & ? & ? & _). lia. }
  destruct Hlen as (Hlen & Hpos).
  rewrite int_add_Done by (unfold INT_MIN, INT_MAX in *; lia).
  cbn [mbind outcome_bind]. unfold realloc. rewrite Hlen.
  assert (H2 : (max_classes st + 10 - max_classes st <=? mem_avail st) = false)
    by (apply Z.leb_gt; lia).
  rewrite H2, andb_false_r. done.
Qed.

Lemma save_class_oom st cls :
  registry_ok st →
  max_classes st ≤ num_classes st →
  max_classes st + increment ≤ INT_MAX →
  mem_avail st < increment →
  save_class st cls = Exit (-1).
Proof.
  intros Hreg Hfull Hmax Hmem. unfold save_class.
  apply Z.leb_le in Hfull. rewrite Hfull.
  by rewrite expand_array_oom.
Qed.

Lemma initialize_malloc_fails fuel st cls cd l :
  descs st !! cls = Some cd →
  cls_initialized cd ≠ prte_class_init_epoch st →
  ancestors fuel (descs st) (Some cls) = Some l →
  Z.of_nat (length l) ≤ INT_MAX →
  Z.of_nat (length (ctors (descs st) l)) + Z.of_nat (length (dtors (descs st) l)) + 2
    ≤ INT_MAX →
  mem_avail st
  < Z.of_nat (length (ctors (descs st) l)) + Z.of_nat (length (dtors (descs st) l)) + 2 →
  prte_class_initialize fuel st cls = Exit (-1).
Proof.
  intros Hcd Hstale Hanc Hsize Hsize2 Hmem.
  pose proof (length_ctors_le (descs st) l) as Hlc.
  pose proof (length_dtors_le (descs st) l) as Hld.
  set (cs := ctors (descs st) l) in *. set (ds := dtors (descs st) l) in *.
  set (e := prte_class_init_epoch st) in *.
  unfold prte_class_initialize. cbn [deref]. rewrite Hcd. cbn [mbind outcome_bind].
  fold e.
  assert (He : (e =? cls_initialized cd) = false) by (apply Z.eqb_neq; congruence).
  rewrite He.
  rewrite (count_loop_spec cls cd (descs st) fuel Hcd l)
    by (done || unfold INT_MAX in *; lia).
  cbn [mbind outcome_bind]. fold cs ds. rewrite !Z.add_0_l.
  rewrite int_add_Done by (unfold INT_MIN, INT_MAX in *; lia).
  cbn [mbind outcome_bind].
  rewrite int_add_Done by (unfold INT_MIN, INT_MAX in *; lia).
  cbn [mbind outcome_bind].
  unfold malloc.
  assert (H2 : (Z.of_nat (length cs) + Z.of_nat (length ds) + 2 <=? mem_avail st) = false)
    by (apply Z.leb_gt; lia).
  rewrite H2, andb_false_r. done.
Qed.

Lemma initialize_oom fuel st cls cd l :
  registry_ok st →
  descs st !! cls = Some cd →
  cls_initialized cd ≠ prte_class_init_epoch st →
  ancestors fuel (descs st) (Some cls) = Some l →
  Z.of_nat (length l) ≤ INT_MAX →
  Z.of_nat (length (ctors (descs st) l)) + Z.of_nat (length (dtors (descs st) l)) + 2
    ≤ INT_MAX →
  (max_classes st ≤ num_classes st → max_classes st + increment ≤ INT_MAX) →
  mem_avail st < mem_needed st l →
  prte_class_initialize fuel st cls = Exit (-1).
Proof.
  intros Hreg Hcd Hstale Hanc Hsize Hsize2 Hmax Hmem.
  set (n := Z.of_nat (length (ctors (descs st) l))
            + Z.of_nat (length (dtors (descs st) l)) + 2) in *.
  destruct (decide (n ≤ mem_avail st)) as [Hfit|Hnofit].
  - rewrite (initialize_to_save fuel st cls cd l) by done.
    unfold mem_needed in Hmem. fold n in Hmem.
    destruct (max_classes st <=? num_classes st) eqn:Hgrow; [|lia].
    apply Z.leb_le in Hgrow.
    apply save_class_oom.
    + by apply registry_ok_pre_save.
    + done.
    + simpl. by apply Hmax.
    + simpl. fold n. lia.
  - apply (initialize_malloc_fails fuel st cls cd l); try done. fold n. lia.
Qed.

(** X1 (prte_class_initialize, the two allocations).  For a stale descriptor
    whose parent chain ends, in a consistent registry and within int range,
    the call has exactly two outcomes, decided by the allocator alone: with
    the slots for the block (and for ten more registry slots when the
    registry is full) available it returns, having taken exactly those slots;
    otherwise the process exits with status -1.  It never faults: every
    store of the call is within the block or the registry array it
    allocated. *)
Theorem initialize_returns_or_exits fuel st cls cd l :
  registry_ok st →
  descs st !! cls = Some cd →
  cls_initialized cd ≠ prte_class_init_epoch st →
  ancestors fuel (descs st) (Some cls) = Some l →
  2 * Z.of_nat (length l) + 2 ≤ INT_MAX →
  max_classes st + increment ≤ INT_MAX →
  (mem_needed st l ≤ mem_avail st →
   ∃ st', prte_class_initialize fuel st cls = Done st' ∧
          mem_avail st' = mem_avail st - mem_needed st l) ∧
  (mem_avail st < mem_needed st l →
   prte_class_initialize fuel st cls = Exit (-1)) ∧
  prte_class_initialize fuel st cls ≠ Fault ∧
  prte_class_initialize fuel st cls ≠ OutOfFuel.
Proof.
  intros Hreg Hcd Hstale Hanc Hsize Hmax.
  pose proof (length_ctors_le (descs st) l) as Hlc.
  pose proof (length_dtors_le (descs st) l) as Hld.
  assert (Hok : mem_needed st l ≤ mem_avail st →
                prte_class_initialize fuel st cls
                = Done (initialized_state st cls cd l))
    by (intros; by apply initialize_ok).
  assert (Hoom : mem_avail st < mem_needed st l →
                 prte_class_initialize fuel st cls = Exit (-1)).
  { intros. apply (initialize_oom fuel st cls cd l); try done; lia. }
  split.
  { intros H. eexists. split; [by apply Hok|].
    unfold mem_needed. simpl. lia. }
  split; [done|].
  destruct (decide (mem_needed st l ≤ mem_avail st)) as [H|H].
  - rewrite Hok by done. done.
  - rewrite Hoom by lia. done.
Qed.

(** With 10 slots of memory the block of [C] (6 slots) is allocated and the
    registry (10 slots) is not: the process exits. *)
Lemma initialize_exits_on_little_memory :
  prte_class_initialize 3 Inputs.tight Demo.C = Exit (-1) ∧
  prte_class_initialize 3 Inputs.tight Demo.C ≠ Fault.
Proof.
  destruct (initialize_returns_or_exits 3 Inputs.tight Demo.C Demo.C_decl Demo.chain)
    as (_ & Hexit & Hfault & _).
  - split; [simpl; unfold INT_MAX; lia|simpl; split; reflexivity].
  - reflexivity.
  - discriminate.
  - reflexivity.
  - vm_compute. discriminate.
  - vm_compute. discriminate.
  - split; [apply Hexit; vm_compute; reflexivity|exact Hfault].
Defined.

(** ** The registry array *)

(** X2 (expand_array).  Called on a full, consistent registry it either
    returns with ten more slots, all of them NULL, the old entries, the
    count, the descriptors, the blocks and the epoch as they were, at the
    price of ten slots of memory, or, when the allocator has no ten slots,
    ends the process with status -1. *)
Theorem expand_array_adds_ten_null_slots st :
  registry_ok st →
  max_classes st ≤ num_classes st →
  max_classes st + increment ≤ INT_MAX →
  (increment ≤ mem_avail st →
   ∃ st' arr',
     expand_array st = Done st' ∧
     classes st' = Some arr' ∧
     max_classes st' = max_classes st + 10 ∧
     Z.of_nat (length arr') = max_classes st' ∧
     num_classes st' = num_classes st ∧
     (∀ i, (i < Z.to_nat (num_classes st))%nat →
           arr' !! i = default [] (classes st) !! i) ∧
     (∀ i, num_classes st ≤ Z.of_nat i < max_classes st' →
           arr' !! i = Some (Some NULL)) ∧
     mem_avail st' = mem_avail st - 10 ∧
     descs st' = descs st ∧ heap st' = heap st ∧
     prte_class_init_epoch st' = prte_class_init_epoch st) ∧
  (mem_avail st < increment → expand_array st = Exit (-1)).
Proof.
  intros Hreg Hfull Hmax. split; [|intros; by apply expand_array_oom].
  intros Hmem. rewrite expand_array_spec by done.
  pose proof (length_default_classes st Hreg) as Hlen.
  assert (Hnum : num_classes st = max_classes st).
  { destruct Hreg as [_ Hreg]. destruct (classes st); [|lia].
    destruct Hreg as (? & _). lia. }
  eexists _, _. split; [reflexivity|].
  cbn [classes max_classes num_classes mem_avail descs heap prte_class_init_epoch].
  split; [reflexivity|].
  unfold increment in *.
  split; [done|].
  split; [rewrite length_app, length_replicate; lia|].
  split; [done|].
  split; [intros i Hi; apply lookup_app_l; lia|].
  split; [|done].
  intros i Hi. rewrite lookup_app_r by lia.
  apply lookup_replicate_2. lia.
Qed.

(** On the full registry of ten classes the eleventh slot to the twentieth
    are added, NULL. *)
Lemma expand_array_on_ten_classes :
  ∃ st' arr',
    expand_array Inputs.full = Done st' ∧
    classes st' = Some arr' ∧
    max_classes st' = 20 ∧
    num_classes st' = 10 ∧
    arr' !! 9%nat = Some (Some (Ptr 10 0)) ∧
    arr' !! 10%nat = Some (Some NULL) ∧
    arr' !! 19%nat = Some (Some NULL) ∧
    arr' !! 20%nat = None.
Proof.
  assert (Hnum0 : num_classes Inputs.full = 10) by (vm_compute; reflexivity).
  assert (Hmax0 : max_classes Inputs.full = 10) by (vm_compute; reflexivity).
  destruct (expand_array_adds_ten_null_slots Inputs.full) as [Hgrow _].
  - destruct (initialize_calls_frame Inputs.ten_calls
                (initial_state Inputs.ten_classes 1000) Inputs.full) as [Hreg _].
    + repeat constructor.
    + apply registry_ok_initial.
    + vm_compute. reflexivity.
    + exact Hreg.
  - rewrite Hnum0, Hmax0. lia.
  - rewrite Hmax0. vm_compute. discriminate.
  - destruct Hgrow as (st' & arr' & Hrun & Harr & Hmax & Hlen & Hnum & Hold & Hnew & _).
    + vm_compute. discriminate.
    + rewrite Hmax0 in Hmax. rewrite Hnum0 in Hnum, Hold, Hnew. rewrite Hmax in Hlen, Hnew.
      exists st', arr'. split; [exact Hrun|]. split; [exact Harr|].
      split; [exact Hmax|]. split; [exact Hnum|].
      split; [rewrite Hold by (vm_compute; lia); vm_compute; reflexivity|].
      split; [apply Hnew; lia|].
      split; [apply Hnew; lia|].
      apply lookup_ge_None. lia.
Defined.

(** X3 (save_class).  In a consistent registry it writes the descriptor's
    cls_construct_array into slot num_classes and adds 1 to num_classes;
    every other slot the array had is unchanged; the capacity grows, by
    ten, exactly when the registry was full; descriptors, blocks and epoch
    are not touched. *)
Theorem save_class_appends st cls cd :
  registry_ok st →
  descs st !! cls = Some cd →
  max_classes st + increment ≤ INT_MAX →
  (if max_classes st <=? num_classes st then increment else 0) ≤ mem_avail st →
  ∃ st' arr',
    save_class st cls = Done st' ∧
    classes st' = Some arr' ∧
    arr' !! Z.to_nat (num_classes st) = Some (Some (cls_construct_array cd)) ∧
    num_classes st' = num_classes st + 1 ∧
    (∀ i, i ≠ Z.to_nat (num_classes st) →
          (i < length (default [] (classes st)))%nat →
          arr' !! i = default [] (classes st) !! i) ∧
    max_classes st'
    = max_classes st + (if max_classes st <=? num_classes st then 10 else 0) ∧
    num_classes st' ≤ max_classes st' ∧
    Z.of_nat (length arr') = max_classes st' ∧
    descs st' = descs st ∧ heap st' = heap st ∧
    prte_class_init_epoch st' = prte_class_init_epoch st.
Proof.
  intros Hreg Hcd Hmax Hmem. rewrite (save_class_spec st cls cd) by done.
  pose proof (length_default_classes st Hreg) as Hlen.
  assert (Hnum : 0 ≤ num_classes st ≤ max_classes st).
  { destruct Hreg as [_ Hreg]. destruct (classes st); [|lia].
    destruct Hreg as (? & _). lia. }
  eexists _, _. split; [reflexivity|].
  cbn [classes max_classes num_classes mem_avail descs heap prte_class_init_epoch].
  split; [reflexivity|].
  unfold increment in *.
  set (old := default [] (classes st)) in *.
  destruct (max_classes st <=? num_classes st) eqn:Hgrow.
  - apply Z.leb_le in Hgrow.
    split; [apply list_lookup_insert_eq; rewrite length_app, length_replicate; lia|].
    split; [done|].
    split; [intros i Hne Hi; rewrite list_lookup_insert_ne by done;
            by apply lookup_app_l|].
    split; [done|]. split; [lia|].
    split; [rewrite length_insert, length_app, length_replicate; lia|done].
  - apply Z.leb_gt in Hgrow. rewrite app_nil_r.
    split; [apply list_lookup_insert_eq; lia|].
    split; [done|].
    split; [intros i Hne Hi; by rewrite list_lookup_insert_ne|].
    split; [done|]. split; [lia|].
    split; [rewrite length_insert; lia|done].
Qed.

(** Saving class 1 in the full registry of ten classes: the array grows to
    twenty slots and slot 10 holds the class's array. *)
Lemma save_class_on_ten_classes :
  ∃ st' arr',
    save_class Inputs.full 1%positive = Done st' ∧
    classes st' = Some arr' ∧
    arr' !! 10%nat = Some (Some (Ptr 1 0)) ∧
    arr' !! 0%nat = Some (Some (Ptr 1 0)) ∧
    num_classes st' = 11 ∧
    max_classes st' = 20.
Proof.
  assert (Hnum0 : num_classes Inputs.full = 10) by (vm_compute; reflexivity).
  assert (Hmax0 : max_classes Inputs.full = 10) by (vm_compute; reflexivity).
  assert (Hlen0 : length (default [] (classes Inputs.full)) = 10%nat)
    by (vm_compute; reflexivity).
  destruct (save_class_appends Inputs.full 1%positive
              (initialized_class (Demo.declare "K" None None None) 1 1 1 0))
    as (st' & arr' & Hrun & Harr & Hslot & Hnum & Hold & Hmax & _).
  - destruct (initialize_calls_frame Inputs.ten_calls
                (initial_state Inputs.ten_classes 1000) Inputs.full) as [Hreg _].
    + repeat constructor.
    + apply registry_ok_initial.
    + vm_compute. reflexivity.
    + exact Hreg.
  - vm_compute. reflexivity.
  - rewrite Hmax0. vm_compute. discriminate.
  - rewrite Hnum0, Hmax0. vm_compute. discriminate.
  - rewrite Hnum0 in Hslot, Hnum, Hold, Hmax. rewrite Hmax0 in Hmax. rewrite Hlen0 in Hold.
    exists st', arr'. split; [exact Hrun|]. split; [exact Harr|].
    split; [exact Hslot|].
    split; [rewrite Hold by lia; vm_compute; reflexivity|].
    split; [exact Hnum|exact Hmax].
Defined.

(** ** What a call leaves alone *)

(** X4 (prte_class_initialize).  A call that returns has written to one
    descriptor only, the one it was given: every other descriptor -- the
    parents included, which are walked but not initialised -- is as
    before.  Of the given descriptor the name, the parent, the constructor,
    the destructor and the size are as declared, and its stamp is the
    current epoch.  The epoch is unchanged, every block allocated before
    keeps its contents, and the registry entries already saved stay. *)
Theorem initialize_writes_one_descriptor fuel st cls st' :
  registry_ok st →
  prte_class_initialize fuel st cls = Done st' →
  (∀ a, a ≠ cls → descs st' !! a = descs st !! a) ∧
  (∃ cd cd',
     descs st !! cls = Some cd ∧ descs st' !! cls = Some cd' ∧
     cls_name cd' = cls_name cd ∧ cls_parent cd' = cls_parent cd ∧
     cls_construct cd' = cls_construct cd ∧ cls_destruct cd' = cls_destruct cd ∧
     cls_sizeof cd' = cls_sizeof cd ∧
     cls_initialized cd' = prte_class_init_epoch st') ∧
  prte_class_init_epoch st' = prte_class_init_epoch st ∧
  (∀ b blk, heap st !! b = Some blk → heap st' !! b = Some blk) ∧
  (∀ i, (i < Z.to_nat (num_classes st))%nat →
        default [] (classes st') !! i = default [] (classes st) !! i).
Proof.
  intros Hreg Hinit.
  pose proof (length_default_classes st Hreg) as Hlen.
  assert (Hnum : 0 ≤ num_classes st ≤ max_classes st).
  { destruct Hreg as [_ Hr]. destruct (classes st); [|lia].
    destruct Hr as (? & _). lia. }
  destruct (initialize_inv _ _ _ _ Hreg Hinit)
    as (cd & Hcd & [[Hcur ->] | (Hstale & l & _ & _ & _ & _ & _ & ->)]).
  - split; [done|]. split; [|done]. by exists cd, cd.
  - cbn [initialized_state descs heap prte_class_init_epoch classes].
    split; [intros a Ha; by rewrite lookup_insert_ne|].
    split; [eexists cd, _; split; [done|]; split; [apply lookup_insert_eq|done]|].
    split; [done|].
    split.
    + intros b blk Hb. rewrite lookup_insert_ne; [done|].
      intros <-. pose proof (is_fresh (dom (heap st))) as Hfresh.
      apply Hfresh. apply elem_of_dom. by eexists.
    + intros i Hi. cbn [default from_option id].
      rewrite list_lookup_insert_ne by lia.
      apply lookup_app_l. lia.
Qed.

(** Initialising [C] leaves its parents [B] and [A] as they were declared,
    stamp 0 included. *)
Lemma initialize_C_leaves_its_parents :
  ∃ st',
    prte_class_initialize 3 Demo.start Demo.C = Done st' ∧
    descs st' !! Demo.B = descs Demo.start !! Demo.B ∧
    descs st' !! Demo.A = descs Demo.start !! Demo.A ∧
    prte_class_init_epoch st' = 1.
Proof.
  assert (Hrun : prte_class_initialize 3 Demo.start Demo.C = Done Demo.after_C)
    by (vm_compute; reflexivity).
  destruct (initialize_writes_one_descriptor 3 Demo.start Demo.C Demo.after_C)
    as (Hothers & _ & Hep & _).
  - split; [simpl; unfold INT_MAX; lia|simpl; split; reflexivity].
  - exact Hrun.
  - exists Demo.after_C. split; [exact Hrun|].
    split; [apply Hothers; discriminate|].
    split; [apply Hothers; discriminate|exact Hep].
Defined.

(** ** Parent links that never reach a root *)

Lemma nth_parent_None n d : nth_parent n d None = None.
Proof. induction n as [|n IH]; [done|]. simpl. apply IH. Qed.

Lemma nth_parent_add j k d c :
  nth_parent (j + k) d c = nth_parent k d (nth_parent j d c).
Proof.
  revert c. induction j as [|j IH]; intros c; [done|].
  simpl. apply IH.
Qed.

Lemma ancestors_nth_parent fuel d :
  ∀ c l, ancestors fuel d c = Some l → nth_parent (length l) d c = None.
Proof.
  induction fuel as [|fuel IH]; intros [a|] l H; simpl in H; simplify_eq; try done.
  destruct (d !! a) as [cd|] eqn:Ha; simpl in H; [|done].
  destruct (ancestors fuel d (cls_parent cd)) as [l'|] eqn:Hl; simpl in H; [|done].
  simplify_eq. simpl. rewrite Ha. simpl. by apply IH.
Qed.

Lemma nth_parent_cycle n d c m :
  nth_parent n d c = c → nth_parent (m * n) d c = c.
Proof.
  intros Hc. induction m as [|m IH]; [done|].
  simpl. rewrite nth_parent_add. by rewrite Hc.
Qed.

Lemma ancestors_cycle fuel d cls j n c :
  nth_parent j d (Some cls) = Some c →
  nth_parent (S n) d (Some c) = Some c →
  ancestors fuel d (Some cls) = None.
Proof.
  intros Hj Hc.
  destruct (ancestors fuel d (Some cls)) as [l|] eqn:Hl; [|done].
  apply ancestors_nth_parent in Hl.
  assert (H : nth_parent (j + length l * S n) d (Some cls) = Some c)
    by (rewrite nth_parent_add, Hj; by apply nth_parent_cycle).
  replace (j + length l * S n)%nat with (length l + (j + length l * n))%nat in H by lia.
  rewrite nth_parent_add, Hl, nth_parent_None in H. done.
Qed.

(** X5 (prte_class_initialize, the walk to the root).  The walk
    [for (c = cls; c; c = c->cls_parent)] ends only at a class without
    parent.  When the parent links of a stale descriptor lead into a cycle,
    no call on it returns, whatever the number of steps allowed; a
    descriptor whose stamp is current is not walked, and the call returns
    at once. *)
Theorem initialize_needs_a_root fuel st cls cd j n c :
  registry_ok st →
  descs st !! cls = Some cd →
  nth_parent j (descs st) (Some cls) = Some c →
  nth_parent (S n) (descs st) (Some c) = Some c →
  (cls_initialized cd ≠ prte_class_init_epoch st →
   ∀ st', prte_class_initialize fuel st cls ≠ Done st') ∧
  (cls_initialized cd = prte_class_init_epoch st →
   prte_class_initialize fuel st cls = Done st).
Proof.
  intros Hreg Hcd Hj Hc. split.
  - intros Hstale st' Hinit.
    destruct (initialize_inv _ _ _ _ Hreg Hinit)
      as (cd' & Hcd' & [[Hcur _] | (_ & l & Hl & _)]); simplify_eq; try done.
    by rewrite (ancestors_cycle fuel (descs st) cls j n c) in Hl.
  - intros Hcur. by apply (initialize_current fuel st cls cd).
Qed.

(** [P] and [Q] name each other as parent, so that [P] is its own
    grandparent: a thousand steps do not initialise [P]. *)
Lemma initialize_on_a_cycle_of_two :
  nth_parent 2 (descs Inputs.looped) (Some Inputs.P) = Some Inputs.P ∧
  prte_class_initialize 1000 Inputs.looped Inputs.P ≠ Done Inputs.looped.
Proof.
  destruct (initialize_needs_a_root 1000 Inputs.looped Inputs.P
              (Demo.declare "P" (Some Inputs.Q) None None) 0 1 Inputs.P)
    as [Hstale _].
  - split; [simpl; unfold INT_MAX; lia|simpl; split; reflexivity].
  - reflexivity.
  - reflexivity.
  - reflexivity.
  - split; [reflexivity|]. apply Hstale. discriminate.
Defined.

(** ** A class and its parent *)

Lemma ancestors_unique f d :
  ∀ f' c l l',
    ancestors f d c = Some l → ancestors f' d c = Some l' → l = l'.
Proof.
  induction f as [|f IH]; intros f' [a|] l l' H H'; destruct f';
    simpl in H, H'; simplify_eq; try done.
  destruct (d !! a) as [cd|]; simpl in H, H'; [|done].
  destruct (ancestors f d (cls_parent cd)) as [t|] eqn:Ht; simpl in H; [|done].
  destruct (ancestors f' d (cls_parent cd)) as [t'|] eqn:Ht'; simpl in H'; [|done].
  simplify_eq. f_equal. by apply (IH f' (cls_parent cd)).
Qed.

Lemma initialize_other_descs fuel st cls st' a :
  registry_ok st →
  prte_class_initialize fuel st cls = Done st' →
  a ≠ cls →
  descs st' !! a = descs st !! a.
Proof.
  intros Hreg Hinit Ha.
  destruct (initialize_inv _ _ _ _ Hreg Hinit)
    as (cd & Hcd & [[Hcur ->] | (Hstale & l & _ & _ & _ & _ & _ & ->)]); [done|].
  simpl. by rewrite lookup_insert_ne.
Qed.

Lemma initialize_establishes fuel st cls cd st' :
  registry_ok st →
  descs st !! cls = Some cd →
  cls_initialized cd ≠ prte_class_init_epoch st →
  prte_class_initialize fuel st cls = Done st' →
  ∃ l, ancestors fuel (descs st) (Some cls) = Some l ∧ initialized_in st' cls l.
Proof.
  intros Hreg Hcd Hstale Hinit.
  destruct (initialize_inv _ _ _ _ Hreg Hinit)
    as (cd' & Hcd' & [[Hcur _] | (_ & l & Hl & _ & _ & _ & _ & ->)]);
    simplify_eq; try done.
  exists l. split; [done|].
  eexists _, _. cbn [initialized_state descs heap prte_class_init_epoch].
  split; [apply lookup_insert_eq|].
  rewrite (ctors_insert _ _ cd), (dtors_insert _ _ cd) by done.
  split; [done|]. split; [done|]. split; [done|]. split; [done|].
  apply lookup_insert_eq.
Qed.

Lemma initialize_keeps fuel st cls st' a l :
  registry_ok st →
  initialized_in st a l →
  prte_class_initialize fuel st cls = Done st' →
  initialized_in st' a l.
Proof.
  intros Hreg (cd & b & Hcd & Hcur & Hdepth & Hca & Hda & Hb) Hinit.
  destruct (initialize_frame _ _ _ _ Hreg Hinit)
    as (_ & Hep & _ & Hheap & _ & _ & Hcs & Hds & Hkeep).
  exists cd, b. rewrite Hep, Hcs, Hds.
  split; [by apply Hkeep|]. do 4 (split; [done|]).
  by apply (lookup_weaken _ _ _ _ Hb).
Qed.

Lemma initialize_calls_keep :
  ∀ cs st st' a l,
    Forall is_initialize cs →
    registry_ok st →
    initialized_in st a l →
    run cs st = Done st' →
    initialized_in st' a l.
Proof.
  induction cs as [|c cs IH]; intros st st' a l Hcs Hreg Hin Hrun.
  - cbn in Hrun. by simplify_eq.
  - apply Forall_cons in Hcs as [Hc Hcs]. cbn [run] in Hrun.
    apply bind_inv in Hrun as (st1 & Hst1 & Hrun).
    destruct c as [fuel cls|]; [|done]. cbn [do_call] in Hst1.
    apply (IH st1 st' a l Hcs); [|by apply (initialize_keeps fuel st cls)|done].
    by destruct (initialize_frame _ _ _ _ Hreg Hst1) as (? & _).
Qed.

Lemma initialize_calls_establish :
  ∀ cs st st' a cd f0,
    Forall is_initialize cs →
    registry_ok st →
    descs st !! a = Some cd →
    cls_initialized cd ≠ prte_class_init_epoch st →
    Initialize f0 a ∈ cs →
    run cs st = Done st' →
    ∃ f l, ancestors f (descs st) (Some a) = Some l ∧ initialized_in st' a l.
Proof.
  induction cs as [|c cs IH]; intros st st' a cd f0 Hcs Hreg Hcd Hstale Hin Hrun.
  - by apply elem_of_nil in Hin.
  - apply Forall_cons in Hcs as [Hc Hcs]. cbn [run] in Hrun.
    apply bind_inv in Hrun as (st1 & Hst1 & Hrun).
    destruct c as [fuel cls|]; [|done]. cbn [do_call] in Hst1.
    destruct (initialize_frame _ _ _ _ Hreg Hst1)
      as (Hreg1 & Hep & _ & _ & _ & Hanc & _).
    destruct (decide (cls = a)) as [->|Hne].
    + destruct (initialize_establishes _ _ _ _ _ Hreg Hcd Hstale Hst1)
        as (l & Hl & Hinit).
      exists fuel, l. split; [done|].
      by apply (initialize_calls_keep cs st1).
    + apply elem_of_cons in Hin as [Heq|Hin]; [congruence|].
      destruct (IH st1 st' a cd f0) as (f & l & Hl & Hinit); try done.
      * by rewrite (initialize_other_descs fuel st cls st1 a).
      * by rewrite Hep.
      * exists f, l. by rewrite <- Hanc.
Qed.

(** X6 (prte_class_initialize on a class and on its parent).  When a class
    and its parent have both been initialised in an epoch, in either order
    and with whatever other initialisations around them, the two results
    fit: the depth of the class is the depth of its parent plus 1; its
    construct array reads as the parent's construct array followed by the
    class's own constructor, if it has one, and the end marker; its
    destruct array reads as its own destructor, if it has one, followed by
    the parent's destruct array. *)
Theorem child_chains_extend_parent_chains cs st st' cls cd p pd f f' :
  registry_ok st →
  Forall is_initialize cs →
  run cs st = Done st' →
  descs st !! cls = Some cd →
  cls_parent cd = Some p →
  descs st !! p = Some pd →
  cls_initialized cd ≠ prte_class_init_epoch st →
  cls_initialized pd ≠ prte_class_init_epoch st →
  Initialize f cls ∈ cs →
  Initialize f' p ∈ cs →
  ∃ cd' pd' (pcs pds : list positive),
    descs st' !! cls = Some cd' ∧
    descs st' !! p = Some pd' ∧
    cls_depth cd' = cls_depth pd' + 1 ∧
    load_array (S (length pcs)) (heap st') (cls_construct_array pd')
    = Done ((Some <$> pcs) ++ [None]) ∧
    load_array (S (length pds)) (heap st') (cls_destruct_array pd')
    = Done ((Some <$> pds) ++ [None]) ∧
    load_array (S (length (pcs ++ option_list (cls_construct cd))))
               (heap st') (cls_construct_array cd')
    = Done ((Some <$> pcs ++ option_list (cls_construct cd)) ++ [None]) ∧
    load_array (S (length (option_list (cls_destruct cd) ++ pds)))
               (heap st') (cls_destruct_array cd')
    = Done ((Some <$> option_list (cls_destruct cd) ++ pds) ++ [None]).
Proof.
  intros Hreg Hcs Hrun Hcd Hpar Hpd Hstale Hpstale Hin Hpin.
  destruct (initialize_calls_establish cs st st' cls cd f Hcs Hreg Hcd Hstale Hin Hrun)
    as (fc & lc & Hlc & (cd' & b & Hcd' & _ & Hdepth & Hca & Hda & Hb)).
  destruct (initialize_calls_establish cs st st' p pd f' Hcs Hreg Hpd Hpstale Hpin Hrun)
    as (fp & lp & Hlp & (pd' & bp & Hpd' & _ & Hpdepth & Hpca & Hpda & Hbp)).
  destruct (initialize_calls_frame cs st st' Hcs Hreg Hrun)
    as (_ & _ & _ & _ & _ & _ & Hctors & Hdtors & _).
  assert (Hlc' : lc = cls :: lp).
  { destruct fc as [|fc]; [done|]. simpl in Hlc. rewrite Hcd in Hlc. simpl in Hlc.
    rewrite Hpar in Hlc.
    destruct (ancestors fc (descs st) (Some p)) as [t|] eqn:Ht; simpl in Hlc; [|done].
    simplify_eq. f_equal. by apply (ancestors_unique _ _ _ _ _ _ Ht Hlp). }
  subst lc.
  rewrite Hctors, Hdtors in Hb, Hbp. rewrite Hctors in Hda, Hpda.
  rewrite ctors_cons_app, dtors_cons_app, Hcd in Hb.
  rewrite ctors_cons_app, Hcd in Hda.
  cbn [mbind option_bind] in Hb, Hda.
  set (own_c := option_list (cls_construct cd)) in *.
  set (own_d := option_list (cls_destruct cd)) in *.
  set (pc := ctors (descs st) lp) in *. set (pd0 := dtors (descs st) lp) in *.
  exists cd', pd', (reverse pc), pd0.
  split; [done|]. split; [done|].
  split; [rewrite Hdepth, Hpdepth; cbn [length]; lia|].
  rewrite Hpca, Hpda, Hca, Hda.
  split.
  { rewrite length_reverse. rewrite (load_construct_chain _ _ _ _ Hbp). done. }
  split.
  { by rewrite (load_destruct_chain _ _ _ _ Hbp). }
  split.
  { replace (length (reverse pc ++ own_c)) with (length (own_c ++ pc))
      by (rewrite !length_app, length_reverse; lia).
    rewrite (load_construct_chain _ _ _ _ Hb).
    rewrite reverse_app. unfold own_c. by rewrite reverse_option_list. }
  by rewrite (load_destruct_chain _ _ _ _ Hb).
Qed.

(** [B] is initialised before its child [C]: [C]'s construct array is
    [B]'s, [A.ctor], followed by [C.ctor]; its destruct array is [C.dtor]
    followed by [B]'s, [B.dtor]. *)
Lemma chains_of_C_extend_chains_of_B :
  ∃ st' cd' pd',
    run [Initialize 2 Demo.B; Initialize 3 Demo.C] Demo.start = Done st' ∧
    descs st' !! Demo.C = Some cd' ∧
    descs st' !! Demo.B = Some pd' ∧
    cls_depth cd' = cls_depth pd' + 1 ∧
    load_array 2 (heap st') (cls_construct_array pd') = Done [Some Demo.A_ctor; None] ∧
    load_array 3 (heap st') (cls_construct_array cd')
    = Done [Some Demo.A_ctor; Some Demo.C_ctor; None] ∧
    load_array 2 (heap st') (cls_destruct_array pd') = Done [Some Demo.B_dtor; None] ∧
    load_array 3 (heap st') (cls_destruct_array cd')
    = Done [Some Demo.C_dtor; Some Demo.B_dtor; None].
Proof.
  pose (st' := if run [Initialize 2 Demo.B; Initialize 3 Demo.C] Demo.start is Done s
               then s else Demo.start).
  assert (Hrun : run [Initialize 2 Demo.B; Initialize 3 Demo.C] Demo.start = Done st')
    by (vm_compute; reflexivity).
  destruct (child_chains_extend_parent_chains
              [Initialize 2 Demo.B; Initialize 3 Demo.C] Demo.start st'
              Demo.C Demo.C_decl Demo.B
              (Demo.declare "B" (Some Demo.A) None (Some Demo.B_dtor)) 3%nat 2%nat)
    as (cd' & pd' & pcs & pds & Hcd' & Hpd' & Hdepth & Hpc & Hpdt & Hcc & Hcdt).
  - split; [simpl; unfold INT_MAX; lia|simpl; split; reflexivity].
  - repeat constructor.
  - exact Hrun.
  - reflexivity.
  - reflexivity.
  - reflexivity.
  - discriminate.
  - discriminate.
  - apply elem_of_cons. right. apply elem_of_cons. by left.
  - apply elem_of_cons. by left.
  - assert (Hpd'' : pd' = initialized_class
                      (Demo.declare "B" (Some Demo.A) None (Some Demo.B_dtor)) 1 2 1 1)
      by (vm_compute in Hpd'; injection Hpd' as <-; vm_compute; reflexivity).
    assert (Hcd'' : cd' = initialized_class Demo.C_decl 1 3 2 2)
      by (vm_compute in Hcd'; injection Hcd' as <-; vm_compute; reflexivity).
    subst cd' pd'.
    exists st', (initialized_class Demo.C_decl 1 3 2 2),
      (initialized_class (Demo.declare "B" (Some Demo.A) None (Some Demo.B_dtor)) 1 2 1 1).
    split; [exact Hrun|]. split; [exact Hcd'|]. split; [exact Hpd'|].
    split; [exact Hdepth|].
    repeat split; vm_compute; reflexivity.
Defined.

(** ** Every slot comes back *)

Lemma registered_none st : classes st = None → registered st = [].
Proof. intros H. unfold registered. rewrite H. simpl. by rewrite take_nil. Qed.

Lemma initialized_heap_registered st cls cd l :
  registry_ok st →
  (∀ b, is_Some (heap st !! b) ↔ b ∈ registered st) →
  ∀ b, is_Some (heap (initialized_state st cls cd l) !! b)
       ↔ b ∈ registered (initialized_state st cls cd l).
Proof.
  intros Hreg Hlive b. rewrite registered_initialized by done.
  cbn [initialized_state heap]. rewrite elem_of_app, list_elem_of_singleton.
  destruct (decide (b = fresh (dom (heap st)))) as [->|Hne].
  - rewrite lookup_insert_eq. split; [by right|by eexists].
  - rewrite lookup_insert_ne by done. rewrite Hlive.
    split; [by left|by intros [?|?]].
Qed.

Lemma finalized_heap_registered st :
  (∀ b, is_Some (heap st !! b) ↔ b ∈ registered st) →
  heap (finalized_state st) = ∅.
Proof.
  intros Hlive. apply map_empty. intros b. cbn [finalized_state heap].
  rewrite foldl_delete_lookup. destruct (decide (b ∈ registered st)) as [|Hb]; [done|].
  rewrite <- Hlive in Hb. by apply eq_None_not_Some.
Qed.

Lemma run_conserves_memory :
  ∀ cs st st',
    registry_ok st →
    (∀ b, is_Some (heap st !! b) ↔ b ∈ registered st) →
    run cs st = Done st' →
    registry_ok st' ∧ mem_total st' = mem_total st ∧
    (∀ b, is_Some (heap st' !! b) ↔ b ∈ registered st').
Proof.
  induction cs as [|c cs IH]; intros st st' Hreg Hlive Hrun.
  - cbn in Hrun. by simplify_eq.
  - cbn [run] in Hrun. apply bind_inv in Hrun as (st1 & Hst1 & Hrun).
    destruct c as [fuel cls|]; cbn [do_call] in Hst1.
    + destruct (initialize_inv _ _ _ _ Hreg Hst1)
        as (cd & Hcd & [[_ ->] | (_ & l & _ & _ & _ & Hmax & _ & ->)]).
      * by apply IH.
      * destruct (IH _ _ (registry_ok_initialized st cls cd l Hreg Hmax)
                    (initialized_heap_registered st cls cd l Hreg Hlive) Hrun)
          as (? & Htot & ?).
        split; [done|]. split; [|done].
        by rewrite Htot, mem_total_initialized.
    + rewrite (finalize_spec st Hreg) in Hst1. cbn in Hst1. simplify_eq.
      destruct (IH (finalized_state st) st') as (? & Htot & ?); try done.
      * by apply registry_ok_finalized.
      * intros b. rewrite finalized_heap_registered by done.
        rewrite lookup_empty, registered_none by done.
        split; [by intros [? ?]|by intros ?%elem_of_nil].
      * split; [done|]. split; [|done]. rewrite Htot.
        unfold mem_total. rewrite registered_none by done. simpl. lia.
Qed.

(** X7 (prte_class_initialize, save_class, expand_array, prte_class_finalize
    together).  Whatever calls of the two operations a process has made
    since its start, no slot is lost: the free slots, the slots of the
    registered blocks and the slots of the registry array sum to the memory
    the process began with; the live blocks are exactly the registered
    ones; and one prte_class_finalize then leaves no block allocated and
    all the memory free. *)
Theorem no_slot_is_lost cs d avail st :
  run cs (initial_state d avail) = Done st →
  mem_avail st + freed_slots (heap st) (registered st) + max_classes st = avail ∧
  (∀ b, is_Some (heap st !! b) ↔ b ∈ registered st) ∧
  ∃ st', prte_class_finalize st = Done (PRTE_SUCCESS, st') ∧
         heap st' = ∅ ∧ mem_avail st' = avail.
Proof.
  intros Hrun.
  destruct (run_conserves_memory cs (initial_state d avail) st) as (Hreg & Htot & Hlive).
  - apply registry_ok_initial.
  - intros b. cbn. rewrite lookup_empty. unfold registered. simpl.
    split; [by intros [? ?]|by intros ?%elem_of_nil].
  - done.
  - assert (Hstart : mem_total (initial_state d avail) = avail)
      by (unfold mem_total, registered; simpl; lia).
    rewrite Hstart in Htot. unfold mem_total in Htot.
    pose proof (length_default_classes st Hreg) as Hlen.
    split; [lia|]. split; [done|].
    exists (finalized_state st). split; [by apply finalize_spec|].
    split; [by apply finalized_heap_registered|].
    cbn [finalized_state mem_avail]. lia.
Qed.

(** Two classes initialised, the registry finalised, one class initialised
    again: 982 free slots, 8 in the two-chain block of [C], 10 in the registry. *)
Lemma no_slot_is_lost_across_a_finalize :
  ∃ st st',
    run [Initialize 2 Demo.B; Initialize 3 Demo.C; Finalize; Initialize 3 Demo.C]
        Demo.start = Done st ∧
    mem_avail st + freed_slots (heap st) (registered st) + max_classes st = 1000 ∧
    prte_class_finalize st = Done (PRTE_SUCCESS, st') ∧
    heap st' = ∅ ∧ mem_avail st' = 1000.
Proof.
  pose (st := if run [Initialize 2 Demo.B; Initialize 3 Demo.C; Finalize;
                      Initialize 3 Demo.C] Demo.start is Done s
              then s else Demo.start).
  assert (Hrun : run [Initialize 2 Demo.B; Initialize 3 Demo.C; Finalize;
                      Initialize 3 Demo.C] Demo.start = Done st)
    by (vm_compute; reflexivity).
  destruct (no_slot_is_lost
              [Initialize 2 Demo.B; Initialize 3 Demo.C; Finalize; Initialize 3 Demo.C]
              Demo.store 1000 st Hrun) as (Hsum & _ & st' & Hfin & Hheap & Hmem).
  exists st, st'. split; [exact Hrun|]. split; [exact Hsum|].
  split; [exact Hfin|]. split; [exact Hheap|exact Hmem].
Defined.

(** ** The registry in the states a process reaches *)

Lemma reachable_registry_tail st :
  reachable st →
  (classes st = None ↔ num_classes st = 0) ∧
  max_classes st < num_classes st + increment ∧
  (∀ i, num_classes st ≤ Z.of_nat i < max_classes st →
        default [] (classes st) !! i = Some (Some NULL)).
Proof.
  induction 1 as [d avail|fuel st cls st' Hreach IH Hinit|st r st' Hreach IH Hfin].
  - cbn. unfold increment. split; [done|]. split; [lia|]. intros i Hi. lia.
  - pose proof (reachable_registry_ok st Hreach) as Hreg.
    pose proof (length_default_classes st Hreg) as Hlen.
    assert (Hnum : 0 ≤ num_classes st ≤ max_classes st).
    { destruct Hreg as [_ Hr]. destruct (classes st); [|lia].
      destruct Hr as (? & _). lia. }
    destruct (initialize_inv _ _ _ _ Hreg Hinit)
      as (cd & Hcd & [[_ ->] | (_ & l & _ & _ & _ & _ & _ & ->)]); [done|].
    destruct IH as (_ & Hcap & Htail).
    cbn [initialized_state classes num_classes max_classes default from_option id].
    unfold increment in *.
    split; [split; [done|lia]|].
    destruct (max_classes st <=? num_classes st) eqn:Hgrow.
    + apply Z.leb_le in Hgrow. split; [lia|]. intros i Hi.
      rewrite list_lookup_insert_ne by lia.
      rewrite lookup_app_r by lia. apply lookup_replicate_2. lia.
    + apply Z.leb_gt in Hgrow. split; [lia|]. intros i Hi.
      rewrite list_lookup_insert_ne by lia. rewrite app_nil_r.
      apply Htail. lia.
  - pose proof (reachable_registry_ok st Hreach) as Hreg.
    rewrite (finalize_spec st Hreg) in Hfin. simplify_eq. cbn.
    unfold increment. split; [done|]. split; [lia|]. intros i Hi. lia.
Qed.

(** X8 (save_class, expand_array, prte_class_finalize: the registry they
    maintain).  In every state a process can reach the epoch is within
    1..INT_MAX; the capacity max_classes is the least multiple of ten that
    is not below num_classes; the array is allocated exactly when a class
    is registered and has max_classes slots; the slots below num_classes
    hold the bases of pairwise distinct live blocks, so that
    prte_class_finalize frees no block twice; and the slots from
    num_classes on hold NULL. *)
Theorem reachable_registry_shape st :
  reachable st →
  1 ≤ prte_class_init_epoch st ≤ INT_MAX ∧
  0 ≤ num_classes st ≤ max_classes st ∧
  max_classes st < num_classes st + 10 ∧
  max_classes st `mod` 10 = 0 ∧
  (classes st = None ↔ num_classes st = 0) ∧
  Z.of_nat (length (default [] (classes st))) = max_classes st ∧
  (∃ bs, Z.of_nat (length bs) = num_classes st ∧ NoDup bs ∧
         ∀ i b, bs !! i = Some b →
                default [] (classes st) !! i = Some (Some (Ptr b 0)) ∧
                is_Some (heap st !! b)) ∧
  (∀ i, num_classes st ≤ Z.of_nat i < max_classes st →
        default [] (classes st) !! i = Some (Some NULL)).
Proof.
  intros Hreach.
  pose proof (reachable_registry_ok st Hreach) as Hreg.
  pose proof (length_default_classes st Hreg) as Hlen.
  destruct (reachable_registry_tail st Hreach) as (Hnone & Hcap & Htail).
  destruct Hreg as [Hep Hreg]. unfold increment in *.
  split; [done|].
  destruct (classes st) as [arr|] eqn:Harr.
  - destruct Hreg as (Hnum & _ & _ & Hmod & bs & Hbs & Hnd & Hlive).
    cbn [default from_option id] in *.
    split; [done|]. split; [done|]. split; [done|]. split; [done|]. split; [done|].
    split; [|done].
    exists bs. split.
    { apply (f_equal length) in Hbs. rewrite length_take, length_fmap in Hbs. lia. }
    split; [done|]. intros i b Hi. split.
    + assert (Hlook : take (Z.to_nat (num_classes st)) arr !! i = Some (Some (Ptr b 0)))
        by (rewrite Hbs, list_lookup_fmap, Hi; done).
      by apply lookup_take_Some in Hlook as [? _].
    + rewrite Forall_forall in Hlive. apply Hlive. by eapply list_elem_of_lookup_2.
  - destruct Hreg as [Hn Hm]. rewrite Hn, Hm. cbn.
    split; [lia|]. split; [lia|]. split; [done|]. split; [done|]. split; [done|].
    split; [|intros i Hi; lia].
    exists []. split; [done|]. split; [apply NoDup_nil_2|]. intros i b Hi.
    by rewrite lookup_nil in Hi.
Qed.

(** After the initialisation of [C]: one class, ten slots, the block of
    [C] in slot 0, NULL in slot 1 to slot 9. *)
Lemma registry_shape_after_C :
  num_classes Demo.after_C = 1 ∧ max_classes Demo.after_C = 10 ∧
  default [] (classes Demo.after_C) !! 9%nat = Some (Some NULL) ∧
  max_classes Demo.after_C < num_classes Demo.after_C + 10.
Proof.
  destruct (reachable_registry_shape Demo.after_C)
    as (_ & _ & Hcap & _ & _ & _ & _ & Htail).
  - apply (reach_initialize 3 Demo.start Demo.C).
    + apply reach_start.
    + vm_compute. reflexivity.
  - split; [reflexivity|]. split; [reflexivity|].
    split; [apply Htail; vm_compute; split; [discriminate|reflexivity]|exact Hcap].
Defined.

(** ** The epoch over many finalisations *)

Lemma next_epoch_mod e x :
  0 ≤ x → e = x `mod` INT_MAX + 1 → next_epoch e = (x + 1) `mod` INT_MAX + 1.
Proof.
  intros Hx ->. unfold next_epoch.
  assert (HM : 0 < INT_MAX) by (unfold INT_MAX; lia).
  pose proof (Z.mod_pos_bound x INT_MAX HM) as Hb.
  rewrite <- (Z.add_mod_idemp_l x 1) by lia.
  destruct (INT_MAX =? x `mod` INT_MAX + 1) eqn:E.
  - apply Z.eqb_eq in E. rewrite <- E, Z.mod_same by lia. done.
  - apply Z.eqb_neq in E. rewrite (Z.mod_small (_ + 1)) by lia. done.
Qed.

Lemma finalize_times_spec n st :
  registry_ok st →
  ∃ st',
    finalize_times n st = Done st' ∧
    registry_ok st' ∧
    prte_class_init_epoch st'
    = (prte_class_init_epoch st - 1 + Z.of_N n) `mod` INT_MAX + 1 ∧
    descs st' = descs st ∧
    (n ≠ 0%N →
     classes st' = None ∧ num_classes st' = 0 ∧ max_classes st' = 0 ∧
     heap st' = heap (finalized_state st) ∧
     mem_avail st' = mem_avail (finalized_state st)).
Proof.
  intros Hreg. unfold finalize_times.
  induction n as [|n IH] using N.peano_ind.
  - exists st. split; [done|]. split; [done|]. split; [|done].
    destruct Hreg as [Hep _]. rewrite Z.add_0_r, Z.mod_small by lia. lia.
  - destruct IH as (st1 & Hrun & Hreg1 & Hep1 & Hdescs1 & Hrest).
    rewrite N.iter_succ, Hrun. cbn [mbind outcome_bind do_call].
    rewrite (finalize_spec st1 Hreg1). cbn [mbind outcome_bind].
    exists (finalized_state st1). split; [done|].
    split; [by apply registry_ok_finalized|].
    split.
    { cbn [finalized_state prte_class_init_epoch].
      rewrite N2Z.inj_succ.
      replace (prte_class_init_epoch st - 1 + Z.succ (Z.of_N n))
        with (prte_class_init_epoch st - 1 + Z.of_N n + 1) by lia.
      apply next_epoch_mod; [|lia]. destruct Hreg as [? _]. lia. }
    split; [done|]. intros _.
    split; [done|]. split; [done|]. split; [done|].
    destruct (decide (n = 0%N)) as [->|Hn].
    + cbn in Hrun. by simplify_eq.
    + destruct (Hrest Hn) as (Hc & _ & _ & Hheap & Hmem).
      cbn [finalized_state heap mem_avail] in *.
      rewrite (registered_none st1 Hc), Hc. simpl. split; [done|]. lia.
Qed.

(** X9 (prte_class_finalize, repeated).  [n] finalisations in a row all
    return.  They leave the epoch at ((e - 1 + n) mod INT_MAX) + 1, where
    [e] is the epoch before: it counts up, steps from INT_MAX to 1, and is
    [e] again exactly when [n] is a multiple of INT_MAX.  The descriptors
    are never written; the first finalisation empties the registry and
    frees the blocks, and the later ones change the epoch only. *)
Theorem epoch_after_finalizations n st :
  registry_ok st →
  ∃ st',
    finalize_times n st = Done st' ∧
    prte_class_init_epoch st'
    = (prte_class_init_epoch st - 1 + Z.of_N n) `mod` INT_MAX + 1 ∧
    (prte_class_init_epoch st' = prte_class_init_epoch st
     ↔ Z.of_N n `mod` INT_MAX = 0) ∧
    descs st' = descs st ∧
    (n ≠ 0%N →
     ∃ st1, prte_class_finalize st = Done (PRTE_SUCCESS, st1) ∧
            classes st' = None ∧ num_classes st' = 0 ∧ max_classes st' = 0 ∧
            heap st' = heap st1 ∧ mem_avail st' = mem_avail st1).
Proof.
  intros Hreg.
  destruct (finalize_times_spec n st Hreg) as (st' & Hrun & _ & Hep & Hdescs & Hrest).
  exists st'. split; [done|]. split; [done|].
  split.
  { rewrite Hep. destruct Hreg as [He _].
    assert (HM : 0 < INT_MAX) by (unfold INT_MAX; lia).
    set (e := prte_class_init_epoch st) in *.
    rewrite <- (Z.add_mod_idemp_r (e - 1) (Z.of_N n)) by lia.
    pose proof (Z.mod_pos_bound (Z.of_N n) INT_MAX HM) as Hb.
    set (r := Z.of_N n `mod` INT_MAX) in *. clearbody r.
    destruct (decide (e - 1 + r < INT_MAX)) as [Hlt|Hge].
    - rewrite Z.mod_small by lia. lia.
    - replace (e - 1 + r) with (e - 1 + r - INT_MAX + 1 * INT_MAX) by lia.
      rewrite Z.mod_add by lia. rewrite Z.mod_small by lia. lia. }
  split; [done|]. intros Hn.
  exists (finalized_state st). split; [by apply finalize_spec|].
  destruct (Hrest Hn) as (? & ? & ? & ? & ?). done.
Qed.

(** Three finalisations from the last epoch, INT_MAX: the epoch is 3. *)
Lemma epoch_three_past_the_wrap :
  ∃ st',
    finalize_times 3 Demo.maxed = Done st' ∧
    prte_class_init_epoch st' = 3 ∧
    descs st' = descs Demo.maxed.
Proof.
  destruct (epoch_after_finalizations 3 Demo.maxed) as (st' & Hrun & Hep & _ & Hd & _).
  - split; [simpl; unfold INT_MAX; lia|simpl; split; reflexivity].
  - exists st'. split; [exact Hrun|]. split; [|exact Hd].
    rewrite Hep. vm_compute. reflexivity.
Defined.

(** X10 (the stamp test of prte_class_initialize against the epoch of
    prte_class_finalize).  A descriptor initialised in an epoch is stale
    after each of the next INT_MAX - 1 finalisations.  After exactly
    INT_MAX finalisations the epoch has come round to its stamp: the block
    of its arrays was freed by the first of them, and yet
    prte_class_initialize takes the descriptor for initialised and returns
    without rebuilding them. *)
Theorem stamp_comes_round_after_INT_MAX_finalizations st cls cd b off :
  registry_ok st →
  descs st !! cls = Some cd →
  cls_initialized cd = prte_class_init_epoch st →
  cls_construct_array cd = Ptr b off →
  b ∈ registered st →
  (∀ n, 0 < Z.of_N n < INT_MAX →
        ∃ st', finalize_times n st = Done st' ∧
               cls_initialized cd ≠ prte_class_init_epoch st') ∧
  ∃ st', finalize_times (Z.to_N INT_MAX) st = Done st' ∧
         descs st' !! cls = Some cd ∧
         heap st' !! b = None ∧
         ∀ fuel, prte_class_initialize fuel st' cls = Done st'.
Proof.
  intros Hreg Hcd Hcur Hca Hb.
  assert (HM : 0 < INT_MAX) by (unfold INT_MAX; lia).
  pose proof Hreg as [He _].
  split.
  - intros n Hn.
    destruct (finalize_times_spec n st Hreg) as (st' & Hrun & _ & Hep & _).
    exists st'. split; [done|]. rewrite Hep, Hcur.
    set (e := prte_class_init_epoch st) in *.
    destruct (decide (e - 1 + Z.of_N n < INT_MAX)) as [Hlt|Hge].
    + rewrite Z.mod_small by lia. lia.
    + replace (e - 1 + Z.of_N n) with (e - 1 + Z.of_N n - INT_MAX + 1 * INT_MAX) by lia.
      rewrite Z.mod_add by lia. rewrite Z.mod_small by lia. lia.
  - destruct (finalize_times_spec (Z.to_N INT_MAX) st Hreg)
      as (st' & Hrun & _ & Hep & Hdescs & Hrest).
    exists st'. split; [done|].
    rewrite Z2N.id in Hep by lia.
    replace (prte_class_init_epoch st - 1 + INT_MAX)
      with (prte_class_init_epoch st - 1 + 1 * INT_MAX) in Hep by lia.
    rewrite Z.mod_add, Z.mod_small in Hep by lia.
    split; [by rewrite Hdescs|].
    split.
    + destruct Hrest as (_ & _ & _ & Hheap & _); [unfold INT_MAX; done|].
      rewrite Hheap. cbn [finalized_state heap]. rewrite foldl_delete_lookup.
      by rewrite decide_True.
    + intros fuel. apply (initialize_current fuel st' cls cd).
      * by rewrite Hdescs.
      * rewrite Hep, Hcur. lia.
Qed.

(** [C], initialised in epoch 1 with its arrays in block 1: after INT_MAX
    finalisations the block is gone and [C] passes for initialised. *)
Lemma stamp_of_C_comes_round :
  ∃ st',
    finalize_times (Z.to_N INT_MAX) Demo.after_C = Done st' ∧
    heap st' !! 1%positive = None ∧
    prte_class_initialize 3 st' Demo.C = Done st'.
Proof.
  destruct (stamp_comes_round_after_INT_MAX_finalizations Demo.after_C Demo.C
              (initialized_class Demo.C_decl 1 3 1 2) 1%positive 0)
    as (_ & st' & Hrun & _ & Hgone & Hinit).
  - split; [simpl; unfold INT_MAX; lia|]. simpl.
    split; [unfold increment; lia|]. split; [reflexivity|].
    split; [unfold increment, INT_MAX; lia|].
    split; [reflexivity|]. exists [1%positive].
    split; [reflexivity|]. split; [apply NoDup_singleton|].
    apply Forall_singleton. eexists. vm_compute. reflexivity.
  - vm_compute. reflexivity.
  - reflexivity.
  - reflexivity.
  - vm_compute. left.
  - exists st'. split; [exact Hrun|]. split; [exact Hgone|apply Hinit].
Defined.
